(** * Linear regression by normal equations and by gradient descent

    A shallow embedding of the two numerical routines of the notebooks
    "Derive Linear Regression from First Principles" and
    "Loss, Optimization, and Geometry":

      - [linear_regression_closed_form]  (spec: solve_closed_form)
      - [gradient_descent]               (spec: run_gradient_descent)

    Arrays are NumPy arrays in the source.  A one-dimensional array is a
    list of numbers, a two-dimensional one is a list of rows together with
    its recorded column count (NumPy keeps the shape [(0, c)] of an array
    without rows).

    The routines are embedded over two kinds of numbers.  Over exact
    rationals ([Qc]) where a statement is about shapes, counts, the order
    of the operations, which exception a shape disagreement raises, and
    which objects a call writes to: none of these depends on rounding.
    Over binary64 numbers (module [Binary64]) where rounding decides: the
    closed form inverts a matrix, and whether that raises, and how close
    the result is to the exact solution, is a matter of the floating-point
    run.  The few statements of the exact model that are about values
    (the parabola of the loss over candidate slopes, the fit without
    feature columns) are statements of exact arithmetic.

    NumPy signals a shape disagreement by [ValueError] and a singular
    matrix by [numpy.linalg.LinAlgError]; these are the source's
    counterparts of the spec's InputShapeMismatch and NumericalSingularity.
    A division of an array by the integer zero does not raise in NumPy: it
    yields not-a-number entries, which the rationals do not have; the
    exact model records that outcome as [NaN].

    The exact model is given twice: on values, and on a store of mutable
    objects, where it is shown what a call writes to and that it computes
    the values of the first model.  The definitions come first; the
    statements about the loop, the elimination behind [np.linalg.inv], the
    normal equations, the binary64 run and the store follow. *)

From Stdlib Require Import List Arith ZArith QArith Qcanon Qabs Lia Bool.
From Stdlib Require PrimFloat SpecFloat FloatOps.
Import ListNotations.

(** ** Outcomes of a call *)

Inductive exception : Type :=
| ValueError     (* shapes not aligned / operands could not be broadcast *)
| LinAlgError    (* singular matrix, or a matrix that is not square *)
| TypeError.     (* an operand that is not an array of the expected kind *)

Inductive result (A : Type) : Type :=
| Ok (a : A)
| Raise (e : exception)
| NaN.           (* returned normally, with not-a-number entries *)

Arguments Ok {A} a.
Arguments Raise {A} e.
Arguments NaN {A}.

Definition bind {A B : Type} (m : result A) (f : A -> result B) : result B :=
  match m with
  | Ok a => f a
  | Raise e => Raise e
  | NaN => NaN
  end.

Declare Scope result_scope.
Delimit Scope result_scope with result.
Notation "x <- m ;; k" := (bind m (fun x => k))
  (at level 61, m at next level, right associativity) : result_scope.

Definition raises {A : Type} (m : result A) : Prop :=
  exists e, m = Raise e.

(** ** Numbers and vectors *)

Local Open Scope Qc_scope.

Abbreviation num := Qc (only parsing).

Definition num_of_nat (n : nat) : num := Q2Qc (inject_Z (Z.of_nat n)).
Definition half : num := Q2Qc (1 # 2).

Definition is_zero (a : num) : bool := Qeq_bool a 0%Q.

Abbreviation vec := (list Qc) (only parsing).

Fixpoint dot (u v : vec) : num :=
  match u, v with
  | a :: u', b :: v' => a * b + dot u' v'
  | _, _ => 0
  end.

Fixpoint vsub (u v : vec) : vec :=
  match u, v with
  | a :: u', b :: v' => (a - b) :: vsub u' v'
  | _, _ => []
  end.

Definition vscale (c : num) (v : vec) : vec := map (Qcmult c) v.
Definition vneg (v : vec) : vec := map Qcopp v.
Definition vsum (v : vec) : num := fold_right Qcplus 0 v.

(** ** Two-dimensional arrays *)

Record ndarray2 : Type := mk2 { shape1 : nat; rows2 : list vec }.

Definition shape0 (A : ndarray2) : nat := length (rows2 A).

Definition wf2 (A : ndarray2) : Prop :=
  Forall (fun r => length r = shape1 A) (rows2 A).

Definition wf2b (A : ndarray2) : bool :=
  forallb (fun r => length r =? shape1 A)%nat (rows2 A).

Definition col (j : nat) (rs : list vec) : vec := map (fun r => nth j r 0) rs.

(** [A.T] *)
Definition transpose (A : ndarray2) : ndarray2 :=
  mk2 (shape0 A) (map (fun j => col j (rows2 A)) (seq 0 (shape1 A))).

(** The row vector [r] times the matrix [B]. *)
Definition vecmat (r : vec) (B : ndarray2) : vec :=
  map (fun j => dot r (col j (rows2 B))) (seq 0 (shape1 B)).

(** [A @ v] for a two-dimensional [A] and a one-dimensional [v]. *)
Definition matvec (A : ndarray2) (v : vec) : result vec :=
  if (shape1 A =? length v)%nat
  then Ok (map (fun r => dot r v) (rows2 A))
  else Raise ValueError.

(** [A @ B] for two-dimensional [A] and [B]. *)
Definition matmul (A B : ndarray2) : result ndarray2 :=
  if (shape1 A =? shape0 B)%nat
  then Ok (mk2 (shape1 B) (map (fun r => vecmat r B) (rows2 A)))
  else Raise ValueError.

(** [-A] *)
Definition neg2 (A : ndarray2) : ndarray2 :=
  mk2 (shape1 A) (map vneg (rows2 A)).

(** [np.ones((n, k))] and [np.zeros((k,))] *)
Definition np_ones (n k : nat) : ndarray2 := mk2 k (repeat (repeat 1 k) n).
Definition np_zeros (k : nat) : vec := repeat 0 k.

(** [np.c_[A, B]]: the columns of [B] appended to those of [A]. *)
Definition np_c_ (A B : ndarray2) : result ndarray2 :=
  if (shape0 A =? shape0 B)%nat
  then Ok (mk2 (shape1 A + shape1 B)
               (map (fun p => fst p ++ snd p) (combine (rows2 A) (rows2 B))))
  else Raise ValueError.

(** [u - v] on one-dimensional arrays, with NumPy's broadcasting: the
    lengths must agree unless one of them is 1, and a length-1 operand is
    stretched to the other's length. *)
Definition np_sub (u v : vec) : result vec :=
  if (length u =? length v)%nat then Ok (vsub u v)
  else match u, v with
       | [a], _ => Ok (map (fun b => a - b) v)
       | _, [b] => Ok (map (fun a => a - b) u)
       | _, _ => Raise ValueError
       end.

(** [v / n] for an integer [n]. *)
Definition np_div_int (v : vec) (n : nat) : result vec :=
  match n with
  | O => NaN
  | S _ => Ok (map (fun a => a / num_of_nat n) v)
  end.

(** [np.mean(v)] *)
Definition np_mean (v : vec) : result num :=
  match v with
  | [] => NaN
  | _ => Ok (vsum v / num_of_nat (length v))
  end.

(** [v ** 2] *)
Definition np_square (v : vec) : vec := map (fun a => a * a) v.

(** [b -= d] on one-dimensional arrays: the update is done in [b]'s own
    shape, so [d] must have [b]'s length or length 1. *)
Definition np_isub (b d : vec) : result vec :=
  if (length d =? length b)%nat then Ok (vsub b d)
  else match d with
       | [a] => Ok (map (fun x => x - a) b)
       | _ => Raise ValueError
       end.

(** ** [np.linalg.inv], in exact arithmetic

    The library routine inverts by elimination with row pivoting and
    raises [LinAlgError] when it meets a column without a usable pivot.
    Here it is Gauss-Jordan elimination on the rows of [M] extended by
    the rows of the identity; in exact arithmetic the choice of the pivot
    does not change the inverse, and the first row whose entry is not zero
    is taken.  What this model returns is the exact inverse; what the
    binary64 run returns or raises is in module [Binary64] below. *)

Abbreviation arow := (list Qc * list Qc)%type (only parsing).

Definition arow_scale (c : num) (p : arow) : arow :=
  (vscale c (fst p), vscale c (snd p)).

(** Row [r] minus its [j]-th entry times the pivot row [p]. *)
Definition arow_elim (j : nat) (p r : arow) : arow :=
  let c := nth j (fst r) 0 in
  (vsub (fst r) (vscale c (fst p)), vsub (snd r) (vscale c (snd p))).

Fixpoint extract_pivot (j : nat) (todo : list arow) : option (arow * list arow) :=
  match todo with
  | [] => None
  | r :: rest =>
      if is_zero (nth j (fst r) 0)
      then match extract_pivot j rest with
           | Some (p, others) => Some (p, r :: others)
           | None => None
           end
      else Some (r, rest)
  end.

Definition unit_vec (n i : nat) : vec :=
  map (fun k => if (k =? i)%nat then 1 else 0) (seq 0 n).

Definition identity (n : nat) : ndarray2 :=
  mk2 n (map (unit_vec n) (seq 0 n)).

(** [k] columns remain, [j] is the current one; [done] holds the rows that
    already served as pivots, in pivot order. *)
Fixpoint gauss_jordan (k j : nat) (done todo : list arow) : option (list arow) :=
  match k with
  | O => Some done
  | S k' =>
      match extract_pivot j todo with
      | None => None
      | Some (p, rest) =>
          let p' := arow_scale (/ nth j (fst p) 0) p in
          gauss_jordan k' (S j)
            (map (arow_elim j p') done ++ [p'])
            (map (arow_elim j p') rest)
      end
  end.

Definition linalg_inv (M : ndarray2) : result ndarray2 :=
  if (shape0 M =? shape1 M)%nat
  then match gauss_jordan (shape0 M) 0 []
               (combine (rows2 M) (rows2 (identity (shape0 M)))) with
       | Some done => Ok (mk2 (shape0 M) (map snd done))
       | None => Raise LinAlgError
       end
  else Raise LinAlgError.

(** ** The two routines *)

Local Open Scope result_scope.

(** Notebook 2:
<<
def linear_regression_closed_form(X, y):
    X_b = np.c_[np.ones((X.shape[0], 1)), X]
    beta_hat = np.linalg.inv(X_b.T @ X_b) @ X_b.T @ y
    return beta_hat
>> *)
Definition linear_regression_closed_form (X : ndarray2) (y : vec) : result vec :=
  X_b <- np_c_ (np_ones (shape0 X) 1) X ;;
  XtX <- matmul (transpose X_b) X_b ;;
  XtX_inv <- linalg_inv XtX ;;
  P <- matmul XtX_inv (transpose X_b) ;;
  matvec P y.

(** Notebook 3: one pass through the body of the loop
<<
        y_pred = X_b @ beta
        error = y - y_pred
        gradient = -X_b.T @ error / n
        beta -= lr * gradient
        loss = 0.5 * np.mean(error ** 2)
        history.append((beta.copy(), loss))
>> *)
Abbreviation history := (list (list Qc * Qc)) (only parsing).

Definition gd_iteration (X_b : ndarray2) (y : vec) (n : nat) (lr : num)
    (st : vec * history) : result (vec * history) :=
  let (beta, hist) := st in
  y_pred <- matvec X_b beta ;;
  error <- np_sub y y_pred ;;
  g <- matvec (neg2 (transpose X_b)) error ;;
  gradient <- np_div_int g n ;;
  beta' <- np_isub beta (vscale lr gradient) ;;
  m <- np_mean (np_square error) ;;
  let loss := half * m in
  Ok (beta', hist ++ [(beta', loss)]).

(** [for epoch in range(k)] *)
Fixpoint gd_loop (X_b : ndarray2) (y : vec) (n : nat) (lr : num)
    (k : nat) (st : vec * history) : result (vec * history) :=
  match k with
  | O => Ok st
  | S k' => st' <- gd_iteration X_b y n lr st ;; gd_loop X_b y n lr k' st'
  end.

(** Notebook 3:
<<
def gradient_descent(X, y, lr=0.01, epochs=100):
    n = X.shape[0]
    X_b = np.c_[np.ones((n, 1)), X]
    beta = np.zeros((2,))
    history = []
    for epoch in range(epochs): ...
    return beta, history
>>
    [range] of a negative count is empty. *)
Definition gradient_descent (X : ndarray2) (y : vec) (lr : num) (epochs : Z)
    : result (vec * history) :=
  let n := shape0 X in
  X_b <- np_c_ (np_ones n 1) X ;;
  gd_loop X_b y n lr (Z.to_nat epochs) (np_zeros 2, []).

(** ** The same routines on a store of objects

    NumPy arrays and Python lists are mutable objects reached through
    references.  To speak about what a call writes to, the routines are
    given a second time over an explicit store: every NumPy operation
    allocates the array it returns, [beta -= ...] writes into the array
    that [beta] names, [beta.copy()] allocates, and [history.append]
    writes into the list object.  [X_b.T] is a view of [X_b]; neither is
    written to after its creation, so the view is kept as an object of its
    own. *)

Definition loc := nat.

Inductive obj : Type :=
| Arr1 (v : vec)
| Arr2 (A : ndarray2)
| PyList (entries : list (loc * num)).

Definition store := list obj.

Definition M (A : Type) : Type := store -> result A * store.

Definition ret {A : Type} (a : A) : M A := fun h => (Ok a, h).

Definition bindM {A B : Type} (m : M A) (f : A -> M B) : M B :=
  fun h =>
    match m h with
    | (Ok a, h') => f a h'
    | (Raise e, h') => (Raise e, h')
    | (NaN, h') => (NaN, h')
    end.

Definition lift {A : Type} (r : result A) : M A := fun h => (r, h).

Declare Scope store_scope.
Delimit Scope store_scope with store.
Notation "x <~ m ;; k" := (bindM m (fun x => k))
  (at level 61, m at next level, right associativity) : store_scope.

Fixpoint update (l : loc) (o : obj) (h : store) : store :=
  match h, l with
  | [], _ => []
  | _ :: t, O => o :: t
  | x :: t, S l' => x :: update l' o t
  end.

Definition alloc (o : obj) : M loc := fun h => (Ok (length h), h ++ [o]).

Definition assign (l : loc) (o : obj) : M unit :=
  fun h => if (l <? length h)%nat then (Ok tt, update l o h)
           else (Raise TypeError, h).

Definition load1 (l : loc) : M vec :=
  fun h => match nth_error h l with
           | Some (Arr1 v) => (Ok v, h)
           | _ => (Raise TypeError, h)
           end.

Definition load2 (l : loc) : M ndarray2 :=
  fun h => match nth_error h l with
           | Some (Arr2 A) => (Ok A, h)
           | _ => (Raise TypeError, h)
           end.

Definition load_list (l : loc) : M (list (loc * num)) :=
  fun h => match nth_error h l with
           | Some (PyList es) => (Ok es, h)
           | _ => (Raise TypeError, h)
           end.

Local Open Scope store_scope.

(** A NumPy operation on the arrays at the given references, returning a
    reference to a new array. *)
Definition op_2_2 (f : ndarray2 -> result ndarray2) (a : loc) : M loc :=
  A <~ load2 a ;; R <~ lift (f A) ;; alloc (Arr2 R).

Definition op_22_2 (f : ndarray2 -> ndarray2 -> result ndarray2) (a b : loc) : M loc :=
  A <~ load2 a ;; B <~ load2 b ;; R <~ lift (f A B) ;; alloc (Arr2 R).

Definition op_21_1 (f : ndarray2 -> vec -> result vec) (a v : loc) : M loc :=
  A <~ load2 a ;; x <~ load1 v ;; r <~ lift (f A x) ;; alloc (Arr1 r).

Definition op_11_1 (f : vec -> vec -> result vec) (u v : loc) : M loc :=
  x <~ load1 u ;; z <~ load1 v ;; r <~ lift (f x z) ;; alloc (Arr1 r).

Definition op_1_1 (f : vec -> result vec) (v : loc) : M loc :=
  x <~ load1 v ;; r <~ lift (f x) ;; alloc (Arr1 r).

Definition total1 {A B : Type} (f : A -> B) : A -> result B := fun a => Ok (f a).

Definition linear_regression_closed_form_h (X y : loc) : M loc :=
  Xv <~ load2 X ;;
  ones <~ alloc (Arr2 (np_ones (shape0 Xv) 1)) ;;
  X_b <~ op_22_2 np_c_ ones X ;;
  X_bT <~ op_2_2 (total1 transpose) X_b ;;
  XtX <~ op_22_2 matmul X_bT X_b ;;
  XtX_inv <~ op_2_2 linalg_inv XtX ;;
  X_bT' <~ op_2_2 (total1 transpose) X_b ;;
  P <~ op_22_2 matmul XtX_inv X_bT' ;;
  op_21_1 matvec P y.

Definition gd_iteration_h (X_b y : loc) (n : nat) (lr : num)
    (beta hist : loc) : M unit :=
  y_pred <~ op_21_1 matvec X_b beta ;;
  error <~ op_11_1 np_sub y y_pred ;;
  X_bT <~ op_2_2 (total1 transpose) X_b ;;
  negT <~ op_2_2 (total1 neg2) X_bT ;;
  g <~ op_21_1 matvec negT error ;;
  gradient <~ op_1_1 (fun v => np_div_int v n) g ;;
  step <~ op_1_1 (total1 (vscale lr)) gradient ;;
  b <~ load1 beta ;;
  d <~ load1 step ;;
  b' <~ lift (np_isub b d) ;;
  _ <~ assign beta (Arr1 b') ;;
  sq <~ op_1_1 (total1 np_square) error ;;
  sqv <~ load1 sq ;;
  m <~ lift (np_mean sqv) ;;
  bv <~ load1 beta ;;
  snapshot <~ alloc (Arr1 bv) ;;
  es <~ load_list hist ;;
  assign hist (PyList (es ++ [(snapshot, half * m)])).

Fixpoint gd_loop_h (X_b y : loc) (n : nat) (lr : num) (beta hist : loc)
    (k : nat) : M unit :=
  match k with
  | O => ret tt
  | S k' => _ <~ gd_iteration_h X_b y n lr beta hist ;;
            gd_loop_h X_b y n lr beta hist k'
  end.

Definition gradient_descent_h (X y : loc) (lr : num) (epochs : Z) : M (loc * loc) :=
  Xv <~ load2 X ;;
  let n := shape0 Xv in
  ones <~ alloc (Arr2 (np_ones n 1)) ;;
  X_b <~ op_22_2 np_c_ ones X ;;
  beta <~ alloc (Arr1 (np_zeros 2)) ;;
  hist <~ alloc (PyList []) ;;
  _ <~ gd_loop_h X_b y n lr beta hist (Z.to_nat epochs) ;;
  ret (beta, hist).

Local Close Scope store_scope.

(** ** Names used in the statements *)

(** The Augmented Design Matrix: a leading 1 in every row. *)
Definition augment (X : ndarray2) : ndarray2 :=
  mk2 (S (shape1 X)) (map (cons 1) (rows2 X)).

Definition q (z : Z) : num := Q2Qc (inject_Z z).

(** Decidable equality of outcomes, to compare computed rationals. *)
Definition num_eqb (a b : num) : bool := Qeq_bool a b.


(** The pieces of one pass of the loop, as functions of the coefficient
    vector held when the pass starts. *)
Definition residual_at (X_b : ndarray2) (y : vec) (beta : vec) : result vec :=
  (y_pred <- matvec X_b beta ;; np_sub y y_pred)%result.

Definition loss_at (X_b : ndarray2) (y : vec) (beta : vec) : result num :=
  (error <- residual_at X_b y beta ;;
   m <- np_mean (np_square error) ;;
   Ok (half * m))%result.

Definition step_at (X_b : ndarray2) (y : vec) (n : nat) (lr : num) (beta : vec)
    : result vec :=
  (error <- residual_at X_b y beta ;;
   g <- matvec (neg2 (transpose X_b)) error ;;
   gradient <- np_div_int g n ;;
   np_isub beta (vscale lr gradient))%result.

(** The coefficient vector after [i] passes started from [beta]. *)
Fixpoint iter_from (X_b : ndarray2) (y : vec) (n : nat) (lr : num)
    (beta : vec) (i : nat) : result vec :=
  match i with
  | O => Ok beta
  | S i' => (b <- step_at X_b y n lr beta ;; iter_from X_b y n lr b i')%result
  end.

(** The same pieces where all shapes agree: [e = y - A beta],
    [g = (-A^T) e / n], [beta - lr g], [0.5 mean(e^2)]. *)
Definition gd_residual (A : ndarray2) (y beta : vec) : vec :=
  vsub y (map (fun r => dot r beta) (rows2 A)).

Definition gd_gradient (A : ndarray2) (n : nat) (e : vec) : vec :=
  map (fun a => a / num_of_nat n)
      (map (fun r => dot r e) (rows2 (neg2 (transpose A)))).

Definition gd_update (lr : num) (beta g : vec) : vec :=
  vsub beta (vscale lr g).

Definition gd_loss (e : vec) : num :=
  half * (vsum (np_square e) / num_of_nat (length e)).

(** [k] passes from [beta]: the last vector and the entries appended, the
    earliest first. *)
Fixpoint gd_trace (A : ndarray2) (y : vec) (n : nat) (lr : num)
    (k : nat) (beta : vec) : vec * history :=
  match k with
  | O => (beta, [])
  | S k' =>
      let e := gd_residual A y beta in
      let beta' := gd_update lr beta (gd_gradient A n e) in
      let (last, entries) := gd_trace A y n lr k' beta' in
      (last, (beta', gd_loss e) :: entries)
  end.

(** The data of the spec's scenario: the exact line [y = 2 x + 5]. *)
Definition X_line : ndarray2 := mk2 1 [[q 0]; [q 1]; [q 2]; [q 3]].
Definition y_line : vec := [q 5; q 7; q 9; q 11].

(** [A x] where the shapes agree (the list that [matvec] returns). *)
Definition mat_apply (A : ndarray2) (x : vec) : vec :=
  map (fun r => dot r x) (rows2 A).

Definition all_zero (v : vec) : Prop := Forall (fun a => a = 0) v.

(** The columns of [A] are linearly independent: only the zero
    combination of them vanishes. *)
Definition independent_columns (A : ndarray2) : Prop :=
  forall x, length x = shape1 A -> all_zero (mat_apply A x) -> all_zero x.

(** A square matrix is singular when it sends a vector that is not zero
    to zero. *)
Definition singular (M : ndarray2) : Prop :=
  exists x, length x = shape1 M /\ ~ all_zero x /\ all_zero (mat_apply M x).

(** What holds of the rows of the elimination when column [j] is about to
    be processed, for a matrix [M] with [n] rows and [n] columns: every row
    [(l, r)] satisfies [l = r M]; the rows that served as pivots are unit
    rows on the first [j] columns and the others are zero there; and a
    vector orthogonal to every left part is sent to zero by [M]. *)
Definition gj_inv (M : ndarray2) (n j : nat) (done todo : list arow) : Prop :=
  length done = j /\
  (length done + length todo = n)%nat /\
  (forall p, In p (done ++ todo) ->
     length (fst p) = n /\ length (snd p) = n /\ fst p = vecmat (snd p) M) /\
  (forall i p, nth_error done i = Some p ->
     forall k, (k < j)%nat -> nth k (fst p) 0 = if (k =? i)%nat then 1 else 0) /\
  (forall p, In p todo -> forall k, (k < j)%nat -> nth k (fst p) 0 = 0) /\
  (forall x, length x = n ->
     (forall p, In p (done ++ todo) -> dot (fst p) x = 0) ->
     all_zero (mat_apply M x)).

(** The vector that shows the matrix singular when column [j] has no
    pivot. *)
Definition kernel_vec (n j : nat) (done : list arow) : vec :=
  map (fun d : arow => - nth j (fst d) 0) done ++ 1 :: repeat 0 (n - S j).

(** The matrix of the normal equations, [A^T A], as [A.T @ A] builds it. *)
Definition normal_matrix (A : ndarray2) : ndarray2 :=
  mk2 (shape1 A) (map (fun r => vecmat r A) (rows2 (transpose A))).


(** The spec's malformed scenario: three rows, four targets. *)
Definition X_three : ndarray2 := mk2 1 [[q 0]; [q 1]; [q 2]].

(** What a call may change in a store [h]: it may allocate, and it may
    write to the objects at [b1] and [b2]; every other object of [h] is
    the same afterwards. *)
Definition frame (b1 b2 : loc) (h h' : store) : Prop :=
  (length h <= length h')%nat /\
  forall l, (l < length h)%nat -> l <> b1 -> l <> b2 ->
    nth_error h' l = nth_error h l.

(** The list object of the Loss History against the history of the
    value-level model: every entry refers to an array of its own, allocated
    at or after [n0], that holds the recorded snapshot. *)
Definition entries_ok (n0 : nat) (b1 b2 : loc) (h : store)
    (es : list (loc * num)) (H : history) : Prop :=
  Forall2 (fun e p =>
             nth_error h (fst e) = Some (Arr1 (fst p)) /\ snd e = snd p /\
             (n0 <= fst e)%nat /\ fst e <> b1 /\ fst e <> b2) es H /\
  NoDup (map fst es).

(** Every object of [h] is still there, unchanged, in [h']. *)
Definition unchanged (h h' : store) : Prop :=
  forall l, (l < length h)%nat -> nth_error h' l = nth_error h l.

(** The outcome of a NumPy operation turned into a step on the store: a
    result is put into a new object, a failure leaves the store as it
    is. *)
Definition after_alloc {A : Type} (r : result A) (wrap : A -> obj) (h : store)
    : result loc * store :=
  match r with
  | Ok a => (Ok (length h), h ++ [wrap a])
  | Raise e => (Raise e, h)
  | NaN => (NaN, h)
  end.

(** ** The cells around the two routines *)

(** Notebook 2, step 5:
<<
X_b = np.c_[np.ones((X.shape[0], 1)), X]
y_pred = X_b @ beta
>> *)
Definition predict (X : ndarray2) (beta : vec) : result vec :=
  (X_b <- np_c_ (np_ones (shape0 X) 1) X ;; matvec X_b beta)%result.


(** [A.flatten()]: the rows one after the other. *)
Definition flatten (A : ndarray2) : vec := concat (rows2 A).

(** [v * b] for a number [b]. *)
Definition np_mul_scalar (v : vec) (b : num) : vec := map (fun a => a * b) v.

(** Notebook 3, step 2, the body of the loop over the candidate slopes:
<<
    y_pred = X.flatten() * b
    loss = 0.5 * np.mean((y - y_pred)**2)
>> *)
Definition slope_loss (X : ndarray2) (y : vec) (b : num) : result num :=
  (let y_pred := np_mul_scalar (flatten X) b in
   error <- np_sub y y_pred ;;
   m <- np_mean (np_square error) ;;
   Ok (half * m))%result.

(** [losses = []; for b in betas: ...; losses.append(loss)] *)
Fixpoint loss_surface (X : ndarray2) (y : vec) (betas : vec) : result (list num) :=
  match betas with
  | [] => Ok []
  | b :: bs =>
      (l <- slope_loss X y b ;;
       ls <- loss_surface X y bs ;;
       Ok (l :: ls))%result
  end.

(** Notebook 3, step 5, with the defaults [lr=0.01, epochs=100]:
<<
beta_gd, history = gradient_descent(X, y)
betas_list = [b[0] for b in history]
losses = [b[1] for b in history]
>> *)
Definition track_convergence (X : ndarray2) (y : vec)
    : result (vec * list vec * list num) :=
  (r <- gradient_descent X y (Q2Qc (1 # 100)) 100 ;;
   Ok (fst r, map fst (snd r), map snd (snd r)))%result.

(** The sum of squared residuals of a prediction. *)
Definition sum_sq (e : vec) : num := vsum (np_square e).

(** ** The closed form in binary64

    NumPy computes in IEEE 754 binary64.  Where a statement depends on
    rounding (whether a pivot of the inversion is exactly zero, how far
    the returned coefficients are from the exact ones), the closed form is
    run on the kernel's binary64 numbers, with the operations in the order
    of the source.

    [np.linalg.inv] hands the matrix to LAPACK's [dgesv] with the identity
    as right-hand side: LU factorisation with partial pivoting (in every
    column the entry of largest magnitude on or below the diagonal becomes
    the pivot, by a row interchange), the same row operations on the
    identity, then back substitution.  [LinAlgError] is raised when a
    pivot is exactly zero, and only then; no tolerance is applied.

    The sums of a matrix product are accumulated from left to right.  An
    optimised BLAS may accumulate in another order, which changes last
    bits, and on a singular or badly conditioned matrix more than that;
    the statements about this model are therefore about whether a call
    raises, about shapes, and about bounds with a tolerance. *)

Module Binary64.

Import PrimFloat.
Local Open Scope float_scope.

Abbreviation vec := (list float) (only parsing).

Fixpoint dot_from (s : float) (u v : vec) : float :=
  match u, v with
  | a :: u', b :: v' => dot_from (s + a * b) u' v'
  | _, _ => s
  end.

Definition dot (u v : vec) : float := dot_from 0 u v.

Record ndarray2 : Type := mk2 { shape1 : nat; rows2 : list vec }.

Definition shape0 (A : ndarray2) : nat := length (rows2 A).

Definition col (j : nat) (rs : list vec) : vec := map (fun r => nth j r 0) rs.

(** [A.T] *)
Definition transpose (A : ndarray2) : ndarray2 :=
  mk2 (shape0 A) (map (fun j => col j (rows2 A)) (seq 0 (shape1 A))).

Definition vecmat (r : vec) (B : ndarray2) : vec :=
  map (fun j => dot r (col j (rows2 B))) (seq 0 (shape1 B)).

(** [A @ v] *)
Definition matvec (A : ndarray2) (v : vec) : result vec :=
  if (shape1 A =? length v)%nat
  then Ok (map (fun r => dot r v) (rows2 A))
  else Raise ValueError.

(** [A @ B] *)
Definition matmul (A B : ndarray2) : result ndarray2 :=
  if (shape1 A =? shape0 B)%nat
  then Ok (mk2 (shape1 B) (map (fun r => vecmat r B) (rows2 A)))
  else Raise ValueError.

(** [np.ones((n, k))] *)
Definition np_ones (n k : nat) : ndarray2 := mk2 k (repeat (repeat 1 k) n).

(** [np.c_[A, B]] *)
Definition np_c_ (A B : ndarray2) : result ndarray2 :=
  if (shape0 A =? shape0 B)%nat
  then Ok (mk2 (shape1 A + shape1 B)
               (map (fun p => fst p ++ snd p) (combine (rows2 A) (rows2 B))))
  else Raise ValueError.

(** A row of the matrix being factorised, with the same row operations
    applied to the identity beside it. *)
Abbreviation arow := (list float * list float)%type (only parsing).

(** [y - c x], entry by entry. *)
Definition axpy (c : float) (x y : vec) : vec :=
  map (fun p => snd p - c * fst p) (combine x y).

(** The position, among [rs], of the first row whose entry in column [j]
    has the largest magnitude seen; [best] is that magnitude so far, found
    at position [found], and [next] is the position of the head of [rs]. *)
Fixpoint iamax (j : nat) (best : float) (found next : nat) (rs : list arow) : nat :=
  match rs with
  | [] => found
  | r :: rs' =>
      let a := abs (nth j (fst r) 0) in
      if best <? a then iamax j a next (S next) rs'
      else iamax j best found (S next) rs'
  end.

Definition pivot_index (j : nat) (rs : list arow) : nat :=
  match rs with
  | [] => O
  | r :: rs' => iamax j (abs (nth j (fst r) 0)) 0 1 rs'
  end.

Fixpoint replace_at {T : Type} (i : nat) (x : T) (l : list T) : list T :=
  match l, i with
  | [], _ => []
  | _ :: t, O => x :: t
  | h :: t, S i' => h :: replace_at i' x t
  end.

(** The interchange of the first row with the row at position [p]. *)
Definition swap_first (p : nat) (rs : list arow) : list arow :=
  match rs with
  | [] => []
  | r0 :: rest =>
      match p with
      | O => rs
      | S p' => match nth_error rest p' with
                | Some rp => rp :: replace_at p' r0 rest
                | None => rs
                end
      end
  end.

(** Row [r] minus its multiplier times the pivot row [p]. *)
Definition eliminate (j : nat) (p r : arow) : arow :=
  let l := nth j (fst r) 0 / nth j (fst p) 0 in
  (axpy l (fst p) (fst r), axpy l (snd p) (snd r)).

(** The factorisation: [k] columns remain, [j] is the current one, [done]
    holds the pivot rows in pivot order.  [None]: a pivot is zero. *)
Fixpoint getrf (k j : nat) (done todo : list arow) : option (list arow) :=
  match k with
  | O => Some done
  | S k' =>
      match swap_first (pivot_index j todo) todo with
      | [] => None
      | p :: rest =>
          if nth j (fst p) 0 =? 0 then None
          else getrf k' (S j) (done ++ [p]) (map (eliminate j p) rest)
      end
  end.

(** Back substitution for one row: the entries of [us] right of the
    diagonal, last column first, against the rows already solved. *)
Fixpoint back_row (acc : vec) (us : list float) (xs : list vec) : vec :=
  match us, xs with
  | u :: us', x :: xs' => back_row (axpy u x acc) us' xs'
  | _, _ => acc
  end.

(** The rows of the inverse, from the last pivot row up to the first. *)
Fixpoint getrs (rows : list arow) (j : nat) (solved : list vec) : list vec :=
  match rows with
  | [] => solved
  | (u, b) :: rows' =>
      let acc := back_row b (rev (skipn (S j) u)) (rev solved) in
      getrs rows' (pred j) (map (fun a => a / nth j u 0) acc :: solved)
  end.

Definition unit_vec (n i : nat) : vec :=
  map (fun k => if (k =? i)%nat then 1 else 0) (seq 0 n).

Definition identity (n : nat) : ndarray2 :=
  mk2 n (map (unit_vec n) (seq 0 n)).

Definition lu_factor (M : ndarray2) : option (list arow) :=
  getrf (shape0 M) 0 [] (combine (rows2 M) (rows2 (identity (shape0 M)))).

(** [np.linalg.inv(M)] *)
Definition linalg_inv (M : ndarray2) : result ndarray2 :=
  if (shape0 M =? shape1 M)%nat
  then match lu_factor M with
       | Some lu => Ok (mk2 (shape0 M) (getrs (rev lu) (pred (shape0 M)) []))
       | None => Raise LinAlgError
       end
  else Raise LinAlgError.

(** Notebook 2, [linear_regression_closed_form], as above. *)
Definition linear_regression_closed_form (X : ndarray2) (y : vec) : result vec :=
  (X_b <- np_c_ (np_ones (shape0 X) 1) X ;;
   XtX <- matmul (transpose X_b) X_b ;;
   XtX_inv <- linalg_inv XtX ;;
   P <- matmul XtX_inv (transpose X_b) ;;
   matvec P y)%result.

(** The Augmented Design Matrix and [A^T A], as the call builds them. *)
Definition augment (X : ndarray2) : ndarray2 :=
  mk2 (S (shape1 X)) (map (cons 1) (rows2 X)).

Definition normal_matrix (A : ndarray2) : ndarray2 :=
  mk2 (shape1 A) (map (fun r => vecmat r A) (rows2 (transpose A))).



(** The spec's scenario of the exact line [y = 2 x + 5]. *)
Definition X_line : ndarray2 := mk2 1 [[0]; [1]; [2]; [3]].
Definition y_line : vec := [5; 7; 9; 11].



(** The spec's malformed scenario: three rows (against the four targets
    of [y_line]). *)
Definition X_three : ndarray2 := mk2 1 [[0]; [1]; [2]].


End Binary64.




(* ================================================================= *)
(** * Basic facts *)

Lemma num_eqb_eq (a b : num) : num_eqb a b = true -> a = b.
Proof.
  unfold num_eqb. intros H. apply Qc_is_canon. now apply Qeq_bool_iff.
Qed.


Lemma is_zero_true (a : num) : is_zero a = true <-> a = 0.
Proof.
  unfold is_zero. split.
  - intros H. apply Qc_is_canon. now apply Qeq_bool_iff.
  - intros ->. reflexivity.
Qed.

Lemma is_zero_false (a : num) : is_zero a = false <-> a <> 0.
Proof.
  rewrite <- is_zero_true. destruct (is_zero a); split; congruence.
Qed.

Lemma wf2b_wf2 (A : ndarray2) : wf2b A = true <-> wf2 A.
Proof.
  unfold wf2b, wf2. rewrite forallb_forall, Forall_forall.
  split; intros H r Hr; specialize (H r Hr); now apply Nat.eqb_eq.
Qed.

Lemma combine_ones (n : nat) (rs : list vec) :
  length rs = n ->
  map (fun p : vec * vec => fst p ++ snd p) (combine (repeat [1] n) rs)
  = map (cons 1) rs.
Proof.
  revert n. induction rs as [|r rs IH]; intros [|n] H; simpl in *;
    try discriminate; auto.
  f_equal. apply IH. lia.
Qed.

(** [np.c_[np.ones((X.shape[0], 1)), X]] never raises and is the
    Augmented Design Matrix. *)
Lemma np_c_ones (X : ndarray2) :
  np_c_ (np_ones (shape0 X) 1) X = Ok (augment X).
Proof.
  unfold np_c_, np_ones, shape0, augment. simpl.
  rewrite repeat_length, Nat.eqb_refl.
  now rewrite combine_ones.
Qed.

Lemma augment_shape0 (X : ndarray2) : shape0 (augment X) = shape0 X.
Proof. unfold shape0, augment. simpl. apply length_map. Qed.

Lemma gradient_descent_unfold (X : ndarray2) (y : vec) (lr : num) (epochs : Z) :
  gradient_descent X y lr epochs
  = gd_loop (augment X) y (shape0 X) lr (Z.to_nat epochs) (np_zeros 2, []).
Proof.
  unfold gradient_descent. now rewrite np_c_ones.
Qed.

Lemma gradient_descent_no_iteration (X : ndarray2) (y : vec) (lr : num) (epochs : Z) :
  (epochs <= 0)%Z -> gradient_descent X y lr epochs = Ok (np_zeros 2, []).
Proof.
  intros H. rewrite gradient_descent_unfold.
  replace (Z.to_nat epochs) with O by lia. reflexivity.
Qed.

(** With a feature count other than one, the first pass through the loop
    stops at [X_b @ beta]: [beta] has two entries whatever [X] is. *)
Lemma gradient_descent_feature_count (X : ndarray2) (y : vec) (lr : num) (epochs : Z) :
  shape1 X <> 1%nat -> (0 < epochs)%Z ->
  gradient_descent X y lr epochs = Raise ValueError.
Proof.
  intros Hc Hk. rewrite gradient_descent_unfold.
  destruct (Z.to_nat epochs) as [|k] eqn:E; [lia|].
  simpl. unfold matvec. simpl.
  destruct (shape1 X) as [|[|c]]; try congruence; reflexivity.
Qed.

(** ** The loop of [gradient_descent] *)

Lemma gd_iteration_split X_b y n lr beta hist :
  gd_iteration X_b y n lr (beta, hist)
  = (b <- step_at X_b y n lr beta ;;
     l <- loss_at X_b y beta ;;
     Ok (b, hist ++ [(b, l)]))%result.
Proof.
  unfold gd_iteration, step_at, loss_at, residual_at.
  destruct (matvec X_b beta) as [yp| |]; simpl; auto.
  destruct (np_sub y yp) as [e| |]; simpl; auto.
  destruct (matvec _ e) as [g| |]; simpl; auto.
  destruct (np_div_int g n) as [gr| |]; simpl; auto.
  destruct (np_isub _ _) as [b| |]; simpl; auto.
  destruct (np_mean _) as [m| |]; simpl; auto.
Qed.

Lemma gd_loop_entries X_b y n lr k :
  forall beta0 hist0 beta hist,
    gd_loop X_b y n lr k (beta0, hist0) = Ok (beta, hist) ->
    exists entries,
      hist = hist0 ++ entries /\ length entries = k /\
      iter_from X_b y n lr beta0 k = Ok beta /\
      forall i b l, nth_error entries i = Some (b, l) ->
        iter_from X_b y n lr beta0 (S i) = Ok b /\
        exists b0, iter_from X_b y n lr beta0 i = Ok b0 /\
                   loss_at X_b y b0 = Ok l.
Proof.
  induction k as [|k IH]; intros beta0 hist0 beta hist H.
  - simpl in H. inversion H; subst. exists []. rewrite app_nil_r.
    split; [reflexivity|]. split; [reflexivity|]. split; [reflexivity|].
    intros [|i] b l Hi; discriminate.
  - cbn [gd_loop] in H. rewrite gd_iteration_split in H.
    destruct (step_at X_b y n lr beta0) as [b1| |] eqn:Es; try discriminate.
    destruct (loss_at X_b y beta0) as [l1| |] eqn:El; try discriminate.
    simpl in H. apply IH in H as (entries & -> & Hlen & Hit & Hnth).
    exists ((b1, l1) :: entries). rewrite <- app_assoc. simpl.
    split; [reflexivity|]. split; [simpl; now rewrite Hlen|].
    split; [rewrite Es; exact Hit|].
    intros [|i] b l Hi; simpl in Hi.
    + inversion Hi; subst. split; [cbn [iter_from]; now rewrite Es|].
      exists beta0. split; [reflexivity | assumption].
    + apply Hnth in Hi as (H1 & b0 & H2 & H3).
      split; [cbn [iter_from] in *; now rewrite Es|].
      exists b0. split; [cbn [iter_from]; now rewrite Es | assumption].
Qed.

Lemma vsub_length (u v : vec) : length (vsub u v) = Nat.min (length u) (length v).
Proof.
  revert v. induction u as [|a u IH]; intros [|b v]; simpl; auto.
Qed.

Lemma gd_update_length lr beta g :
  length g = length beta -> length (gd_update lr beta g) = length beta.
Proof.
  intros H. unfold gd_update, vscale. rewrite vsub_length, length_map. lia.
Qed.

Lemma gd_gradient_length A n e : length (gd_gradient A n e) = shape1 A.
Proof.
  unfold gd_gradient, neg2, transpose. simpl.
  now rewrite !length_map, length_seq.
Qed.

Lemma gd_residual_length A y beta :
  length y = shape0 A -> length (gd_residual A y beta) = shape0 A.
Proof.
  intros H. unfold gd_residual. rewrite vsub_length, length_map.
  unfold shape0 in *. lia.
Qed.

(** Where the shapes agree and there is at least one row, one pass of the
    loop raises nothing and computes the four formulas. *)
Lemma gd_iteration_aligned A y n lr beta hist :
  shape1 A = length beta -> length y = shape0 A -> shape0 A = n -> (0 < n)%nat ->
  gd_iteration A y n lr (beta, hist)
  = let e := gd_residual A y beta in
    let beta' := gd_update lr beta (gd_gradient A n e) in
    Ok (beta', hist ++ [(beta', gd_loss e)]).
Proof.
  intros Hb Hy Hn Hpos. unfold gd_iteration, matvec.
  rewrite Hb, Nat.eqb_refl. cbn [bind].
  unfold np_sub. rewrite length_map. fold (shape0 A).
  rewrite Hy, Nat.eqb_refl. cbn [bind].
  fold (gd_residual A y beta).
  assert (He : length (gd_residual A y beta) = n)
    by (rewrite gd_residual_length; auto).
  replace (shape1 (neg2 (transpose A))) with n by (simpl; auto).
  rewrite He, Nat.eqb_refl. cbn [bind].
  unfold np_div_int. destruct n as [|n']; [lia|]. cbn [bind].
  fold (gd_gradient A (S n') (gd_residual A y beta)).
  unfold np_isub, vscale. rewrite length_map, gd_gradient_length, Hb, Nat.eqb_refl.
  cbn [bind]. unfold np_mean.
  destruct (np_square (gd_residual A y beta)) as [|s sq] eqn:Esq.
  - apply (f_equal (@length _)) in Esq. unfold np_square in Esq.
    rewrite length_map, He in Esq. discriminate.
  - cbn [bind]. rewrite <- Esq. unfold gd_loss, gd_update, vscale.
    replace (length (np_square (gd_residual A y beta)))
      with (length (gd_residual A y beta))
      by (unfold np_square; now rewrite length_map).
    reflexivity.
Qed.

Lemma gd_loop_aligned A y n lr k :
  forall beta hist,
    shape1 A = length beta -> length y = shape0 A -> shape0 A = n -> (0 < n)%nat ->
    gd_loop A y n lr k (beta, hist)
    = Ok (fst (gd_trace A y n lr k beta),
          hist ++ snd (gd_trace A y n lr k beta)).
Proof.
  induction k as [|k IH]; intros beta hist Hb Hy Hn Hpos.
  - simpl. now rewrite app_nil_r.
  - cbn [gd_loop gd_trace]. rewrite gd_iteration_aligned by assumption.
    cbn [bind]. rewrite IH; auto.
    + destruct (gd_trace A y n lr k _) as [last entries]. simpl.
      now rewrite <- app_assoc.
    + rewrite gd_update_length; auto. now rewrite gd_gradient_length.
Qed.

Lemma gd_trace_length A y n lr k beta :
  length (snd (gd_trace A y n lr k beta)) = k.
Proof.
  revert beta. induction k as [|k IH]; intros beta; simpl; auto.
  specialize (IH (gd_update lr beta (gd_gradient A n (gd_residual A y beta)))).
  destruct (gd_trace A y n lr k _). simpl in *. now rewrite IH.
Qed.

Lemma gd_trace_beta_length A y n lr k beta :
  shape1 A = length beta ->
  length (fst (gd_trace A y n lr k beta)) = length beta.
Proof.
  revert beta. induction k as [|k IH]; intros beta Hb; simpl; auto.
  specialize (IH (gd_update lr beta (gd_gradient A n (gd_residual A y beta)))).
  destruct (gd_trace A y n lr k _). simpl in *.
  rewrite IH; rewrite gd_update_length; auto; now rewrite gd_gradient_length.
Qed.

Lemma dot_vneg_l (u v : vec) : dot (vneg u) v = - dot u v.
Proof.
  revert v. induction u as [|a u IH]; intros [|b v]; simpl; try ring.
  rewrite IH. ring.
Qed.

(** The gradient of a pass is [-(A^T e) / n]: negating the matrix first, as
    the source does, gives the same numbers. *)
Lemma gd_gradient_formula (A : ndarray2) (n : nat) (e : vec) :
  gd_gradient A n e
  = map (fun a => - a / num_of_nat n)
        (map (fun r => dot r e) (rows2 (transpose A))).
Proof.
  unfold gd_gradient, neg2. cbn [rows2]. rewrite !map_map.
  apply map_ext. intros r. now rewrite dot_vneg_l.
Qed.

(** A Design Matrix with one feature column, at least one row and a target
    of matching length: [gradient_descent] runs all its passes. *)
Lemma gradient_descent_single_feature (X : ndarray2) (y : vec) (lr : num) (epochs : Z) :
  shape1 X = 1%nat -> length y = shape0 X -> (0 < shape0 X)%nat ->
  gradient_descent X y lr epochs
  = Ok (gd_trace (augment X) y (shape0 X) lr (Z.to_nat epochs) (np_zeros 2)).
Proof.
  intros Hc Hy Hn. rewrite gradient_descent_unfold.
  rewrite gd_loop_aligned; auto.
  - now destruct (gd_trace _ _ _ _ _ _).
  - simpl. now rewrite Hc.
  - unfold shape0, augment in *. simpl. now rewrite length_map.
  - unfold shape0, augment. simpl. now rewrite length_map.
Qed.

(* ================================================================= *)
(** * Gradient descent: what the loop returns *)

(** C1. The claim: for every feature-column count [c], [gradient_descent]
    starts from and returns a coefficient vector of length [c + 1].  The
    source builds [beta = np.zeros((2,))] whatever [X] is.  On a valid
    Design Matrix with two feature columns and a matching Target Vector,
    a call without iterations returns a vector of length 2, not 3, and a
    call with one iteration raises [ValueError] at [X_b @ beta] and
    returns no coefficient vector at all. *)
Theorem gradient_descent_two_features_length :
  let X := mk2 2 [[q 1; q 2]; [q 3; q 5]; [q 4; q 4]] in
  let y := [q 1; q 2; q 3] in
  wf2 X /\ length y = shape0 X /\
  (forall lr, exists beta,
      gradient_descent X y lr 0 = Ok (beta, []) /\
      length beta = 2%nat /\ length beta <> (shape1 X + 1)%nat) /\
  (forall lr, gradient_descent X y lr 1 = Raise ValueError).
Proof.
  intros X y. split; [|split; [|split]].
  - apply wf2b_wf2. reflexivity.
  - reflexivity.
  - intros lr. exists (np_zeros 2). split; [|split].
    + now apply gradient_descent_no_iteration.
    + reflexivity.
    + simpl. discriminate.
  - intros lr. apply gradient_descent_feature_count; simpl; [discriminate | lia].
Qed.

(** C6. The claim: for every valid input and every iteration count
    [k >= 0] the loop runs exactly [k] passes and the Loss History has one
    entry per pass.  On a valid Design Matrix with two feature columns
    the call with [k = 3] raises [ValueError] in its first pass, so no
    pass completes and no Loss History is returned.  (For one feature
    column the passes are those of [gd_trace]; see
    [gradient_descent_single_feature] and [gd_trace_length].) *)
Theorem gradient_descent_two_features_no_pass :
  let X := mk2 2 [[q 1; q 2]; [q 3; q 5]; [q 4; q 4]] in
  let y := [q 1; q 2; q 3] in
  wf2 X /\ length y = shape0 X /\ (0 < shape0 X)%nat /\
  forall lr, gradient_descent X y lr 3 = Raise ValueError.
Proof.
  intros X y. split; [|split; [|split]].
  - apply wf2b_wf2. reflexivity.
  - reflexivity.
  - unfold X, shape0. simpl. lia.
  - intros lr. apply gradient_descent_feature_count; simpl; [discriminate | lia].
Qed.

(** C7.  [gradient_descent] called with iteration count 0 returns
    [np.zeros((2,))] and an empty Loss History, whatever the Design Matrix
    is.  With one feature column that is the all-zero Coefficient Vector.
    With two feature columns the Coefficient Vector has three entries, and
    the two zeros that come back are not it: the hard-coded length of C1. *)
Theorem gradient_descent_zero_iterations :
  (forall (X : ndarray2) (y : vec) (lr : num),
      gradient_descent X y lr 0 = Ok ([0; 0], [])) /\
  (forall X : ndarray2, shape1 X = 1%nat -> [0; 0] = np_zeros (shape1 X + 1)) /\
  (let X := mk2 2 [[q 1; q 2]; [q 3; q 5]; [q 4; q 4]] in
   let y := [q 1; q 2; q 3] in
   wf2 X /\ length y = shape0 X /\
   forall lr, exists beta,
     gradient_descent X y lr 0 = Ok (beta, []) /\
     beta <> np_zeros (shape1 X + 1)).
Proof.
  split; [|split].
  - intros X y lr. apply gradient_descent_no_iteration. lia.
  - intros X ->. reflexivity.
  - intros X y. split; [apply wf2b_wf2; reflexivity|]. split; [reflexivity|].
    intros lr. exists (np_zeros 2). split.
    + apply gradient_descent_no_iteration. lia.
    + simpl. discriminate.
Qed.



(** The vector after [i + 1] passes is one more pass from the vector
    after [i] passes. *)
Lemma iter_from_last (A : ndarray2) (y : vec) (n : nat) (lr : num) (i : nat) :
  forall beta,
    iter_from A y n lr beta (S i)
    = (b <- iter_from A y n lr beta i ;; step_at A y n lr b)%result.
Proof.
  induction i as [|i IH]; intros beta.
  - cbn [iter_from bind]. now destruct (step_at A y n lr beta).
  - change (iter_from A y n lr beta (S (S i)))
      with (b <- step_at A y n lr beta ;; iter_from A y n lr b (S i))%result.
    change (iter_from A y n lr beta (S i))
      with (b <- step_at A y n lr beta ;; iter_from A y n lr b i)%result.
    destruct (step_at A y n lr beta) as [b1| |]; cbn [bind]; auto.
Qed.

(** One pass that returns, with everything it computes written out: the
    residual [e] of the vector [b0] held when the pass starts, the product
    [g = (-A^T) e], the vector [b0 - lr (g / n)] that the pass leaves, and
    the loss [0.5 mean(e^2)] that it records. *)
Lemma gd_pass_explicit (A : ndarray2) (y : vec) (n : nat) (lr : num)
    (b0 b : vec) (l : num) :
  step_at A y n lr b0 = Ok b -> loss_at A y b0 = Ok l ->
  exists e g,
    residual_at A y b0 = Ok e /\
    (length y = shape0 A -> e = vsub y (mat_apply A b0)) /\
    g = mat_apply (neg2 (transpose A)) e /\
    (0 < n)%nat /\ (0 < length e)%nat /\
    b = vsub b0 (vscale lr (map (fun a => a / num_of_nat n) g)) /\
    l = half * (vsum (np_square e) / num_of_nat (length e)).
Proof.
  unfold step_at, loss_at. intros Hs Hl.
  destruct (residual_at A y b0) as [e| |] eqn:Er; try discriminate.
  cbn [bind] in Hs, Hl.
  destruct (matvec (neg2 (transpose A)) e) as [g| |] eqn:Eg; try discriminate.
  cbn [bind] in Hs.
  destruct n as [|n']; [discriminate|]. cbn [np_div_int bind] in Hs.
  exists e, g. split; [reflexivity|].
  assert (Hb0 : shape1 A = length b0 /\
                (length y = shape0 A -> e = vsub y (mat_apply A b0))).
  { unfold residual_at, matvec in Er.
    destruct (Nat.eqb_spec (shape1 A) (length b0)) as [E|E]; [|discriminate].
    split; [exact E|]. intros Hy. cbn [bind] in Er. unfold np_sub in Er.
    rewrite length_map in Er. fold (shape0 A) in Er.
    rewrite Hy, Nat.eqb_refl in Er. now injection Er as <-. }
  destruct Hb0 as [Hb0 He].
  assert (Hg : g = mat_apply (neg2 (transpose A)) e /\ length g = length b0).
  { unfold matvec in Eg. destruct (_ =? _)%nat; [|discriminate].
    injection Eg as <-. split; [reflexivity|]. rewrite length_map.
    unfold neg2, transpose. cbn [rows2]. now rewrite !length_map, length_seq. }
  destruct Hg as [Hgv Hg].
  split; [exact He|]. split; [exact Hgv|]. split; [lia|].
  unfold np_mean in Hl.
  destruct (np_square e) as [|s sq] eqn:Esq; [discriminate|].
  cbn [bind] in Hl. injection Hl as <-.
  assert (Hlen : length (s :: sq) = length e)
    by (rewrite <- Esq; unfold np_square; now rewrite length_map).
  split; [rewrite <- Hlen; simpl; lia|]. split.
  - unfold np_isub, vscale in Hs. rewrite !length_map, Hg, Nat.eqb_refl in Hs.
    injection Hs as <-. reflexivity.
  - rewrite <- Hlen. reflexivity.
Qed.

(** C10, as the claim states it, fails in its last part: the loss of the
    returned coefficients can appear in the history.  With targets that
    are all zero the zero vector is the fit, no pass moves it, and every
    entry records its loss, which is the loss of the vector returned; the
    same happens on the spec's line with learning rate 0. *)
Lemma returned_loss_recorded :
  (exists beta hist l,
     gradient_descent X_line [q 0; q 0; q 0; q 0] (Q2Qc (1 # 20)) 2
     = Ok (beta, hist) /\
     loss_at (augment X_line) [q 0; q 0; q 0; q 0] beta = Ok l /\
     In l (map snd hist)) /\
  (exists beta hist l,
     gradient_descent X_line y_line 0 3 = Ok (beta, hist) /\
     loss_at (augment X_line) y_line beta = Ok l /\
     In l (map snd hist)).
Proof.
  split.
  - eexists. eexists. eexists. split; [vm_compute; reflexivity|].
    split; [vm_compute; reflexivity|].
    left. apply num_eqb_eq. vm_compute. reflexivity.
  - eexists. eexists. eexists. split; [vm_compute; reflexivity|].
    split; [vm_compute; reflexivity|].
    left. apply num_eqb_eq. vm_compute. reflexivity.
Qed.

(** C10, amended.  In every Loss History entry of a call that returns,
    the snapshot is the vector after that pass and the loss is the loss of
    the vector held before it: entry [i] (counted from 0) holds
    [b = b0 - lr ((-A^T) e / n)] and [0.5 mean(e^2)], where [b0] is the
    vector after [i] passes and [e] its residual.  So the first loss is
    that of the zero vector, and the last entry pairs the returned vector
    with the loss of the vector before the last update: no pass computes
    the loss of the returned vector.  (Its value may still equal a
    recorded one.) *)
Theorem loss_history_entry_lags (X : ndarray2) (y : vec) (lr : num) (epochs : Z)
    (beta : vec) (hist : history) :
  gradient_descent X y lr epochs = Ok (beta, hist) ->
  let A := augment X in
  let n := shape0 X in
  let beta_ i := iter_from A y n lr (np_zeros 2) i in
  length hist = Z.to_nat epochs /\
  beta_ (length hist) = Ok beta /\
  (forall i b l, nth_error hist i = Some (b, l) ->
     exists b0 e g,
       beta_ i = Ok b0 /\ beta_ (S i) = Ok b /\
       residual_at A y b0 = Ok e /\
       (length y = n -> e = vsub y (mat_apply A b0)) /\
       g = mat_apply (neg2 (transpose A)) e /\
       b = vsub b0 (vscale lr (map (fun a => a / num_of_nat n) g)) /\
       l = half * (vsum (np_square e) / num_of_nat (length e))) /\
  (forall b l, nth_error hist 0 = Some (b, l) ->
     loss_at A y (np_zeros 2) = Ok l) /\
  (forall b l, nth_error hist (length hist - 1)%nat = Some (b, l) ->
     b = beta /\
     exists b0, beta_ (length hist - 1)%nat = Ok b0 /\ loss_at A y b0 = Ok l).
Proof.
  intros H A n beta_. rewrite gradient_descent_unfold in H.
  apply gd_loop_entries in H as (entries & -> & Hlen & Hit & Hnth).
  cbn [app]. subst beta_ A n. cbv beta. rewrite Hlen.
  split; [reflexivity|]. split; [exact Hit|]. split; [|split].
  - intros i b l Hi. destruct (Hnth i b l Hi) as (Hb & b0 & Hb0 & Hl).
    assert (Hs : step_at (augment X) y (shape0 X) lr b0 = Ok b).
    { rewrite iter_from_last, Hb0 in Hb. exact Hb. }
    destruct (gd_pass_explicit _ _ _ _ _ _ _ Hs Hl)
      as (e & g & He & Hal & Hg & _ & _ & Hbv & Hlv).
    exists b0, e, g. rewrite augment_shape0 in Hal. repeat split; auto.
  - intros b l H0. apply Hnth in H0 as (_ & b0 & Hb0 & Hl).
    simpl in Hb0. now inversion Hb0; subst.
  - intros b l Hlast. pose proof Hlast as Hlast'.
    apply Hnth in Hlast as (Hb & b0 & Hb0 & Hl).
    assert (Hk : (S (Z.to_nat epochs - 1) = Z.to_nat epochs)%nat).
    { assert (Z.to_nat epochs - 1 < length entries)%nat
        by (apply nth_error_Some; congruence).
      lia. }
    rewrite Hk in Hb. split; [congruence|]. exists b0. auto.
Qed.

Lemma loss_history_entry_lags_witness :
  exists beta hist,
    gradient_descent X_line y_line (Q2Qc (1 # 20)) 2 = Ok (beta, hist) /\
    length hist = 2%nat /\
    forall b l, nth_error hist 0 = Some (b, l) ->
      loss_at (augment X_line) y_line (np_zeros 2) = Ok l.
Proof.
  assert (Hn : (0 < shape0 X_line)%nat) by (unfold X_line, shape0; simpl; lia).
  pose proof (@gradient_descent_single_feature X_line y_line (Q2Qc (1 # 20)) 2
                eq_refl eq_refl Hn) as E.
  destruct (gd_trace _ _ _ _ _ _) as [beta hist].
  exists beta, hist. split; [exact E|].
  destruct (@loss_history_entry_lags X_line y_line (Q2Qc (1 # 20)) 2 beta hist E)
    as (H1 & _ & _ & H4 & _).
  split; [exact H1 | exact H4].
Defined.

(** C4, as the claim states it, fails: a call with a negative learning
    rate and a call with a negative iteration count both return. *)
Lemma invalid_parameters_not_rejected :
  q (-1) <= 0 /\ (-1 < 0)%Z /\
  ~ raises (gradient_descent X_line y_line (q (-1)) 3) /\
  ~ raises (gradient_descent X_line y_line (Q2Qc (1 # 20)) (-1)).
Proof.
  split; [|split; [|split]].
  - unfold Qcle. simpl. unfold Qle. simpl. lia.
  - lia.
  - intros [e He]. rewrite gradient_descent_single_feature in He;
      [discriminate | reflexivity | reflexivity | unfold X_line, shape0; simpl; lia].
  - intros [e He]. rewrite gradient_descent_no_iteration in He; [discriminate | lia].
Qed.

(** C4, amended.  The parameters are not validated.  On a Design Matrix
    with one feature column, at least one row and a matching Target
    Vector, a call with a non-positive learning rate or a negative
    iteration count returns: it runs the passes of the loop with the rate
    it was given, as many as [range] yields, and a negative count yields
    none, so that the zero vector and an empty Loss History come back. *)
Theorem gradient_descent_parameters_unchecked
    (X : ndarray2) (y : vec) (lr : num) (epochs : Z) :
  lr <= 0 \/ (epochs < 0)%Z ->
  shape1 X = 1%nat -> length y = shape0 X -> (0 < shape0 X)%nat ->
  exists beta hist,
    gradient_descent X y lr epochs = Ok (beta, hist) /\
    (beta, hist) = gd_trace (augment X) y (shape0 X) lr (Z.to_nat epochs) (np_zeros 2) /\
    length hist = Z.to_nat epochs /\
    ((epochs < 0)%Z -> beta = np_zeros 2 /\ hist = []).
Proof.
  intros _ Hc Hy Hn.
  pose proof (gradient_descent_single_feature X y lr epochs Hc Hy Hn) as E.
  pose proof (gd_trace_length (augment X) y (shape0 X) lr (Z.to_nat epochs)
                (np_zeros 2)) as L.
  destruct (gd_trace _ _ _ _ _ _) as [beta hist] eqn:T.
  exists beta, hist. repeat split; auto.
  - replace (Z.to_nat epochs) with O in T by lia. simpl in T. congruence.
  - replace (Z.to_nat epochs) with O in T by lia. simpl in T. congruence.
Qed.

Lemma gradient_descent_parameters_unchecked_witness :
  exists beta hist,
    gradient_descent X_line y_line (q (-1)) 3 = Ok (beta, hist) /\
    length hist = 3%nat.
Proof.
  assert (Hlr : q (-1) <= 0) by (unfold Qcle, Qle; simpl; lia).
  assert (Hn : (0 < shape0 X_line)%nat) by (unfold X_line, shape0; simpl; lia).
  destruct (@gradient_descent_parameters_unchecked X_line y_line (q (-1)) 3
              (or_introl Hlr) eq_refl eq_refl Hn)
    as (beta & hist & H1 & _ & H3 & _).
  exists beta, hist. split; [exact H1 | exact H3].
Defined.

(* ================================================================= *)
(** * Vectors and matrices *)

Lemma dot_nil_r (u : vec) : dot u [] = 0.
Proof. now destruct u. Qed.

Lemma dot_comm (u v : vec) : dot u v = dot v u.
Proof.
  revert v. induction u as [|a u IH]; intros [|b v]; simpl; auto.
  rewrite IH. ring.
Qed.

Lemma dot_vscale_l (c : num) (u v : vec) : dot (vscale c u) v = c * dot u v.
Proof.
  revert v. induction u as [|a u IH]; intros [|b v]; simpl; try ring.
  rewrite IH. ring.
Qed.

Lemma dot_vsub_l (u w v : vec) :
  length u = length w -> dot (vsub u w) v = dot u v - dot w v.
Proof.
  revert w v. induction u as [|a u IH]; intros [|b w] [|c v] H; simpl in *;
    try discriminate; try ring.
  rewrite IH by lia. ring.
Qed.

Lemma dot_map_plus {T : Type} (f g : T -> num) (l : list T) (x : vec) :
  dot (map (fun j => f j + g j) l) x = dot (map f l) x + dot (map g l) x.
Proof.
  revert x. induction l as [|j l IH]; intros [|b x]; simpl; try ring.
  rewrite IH. ring.
Qed.

Lemma dot_map_scale {T : Type} (a : num) (f : T -> num) (l : list T) (x : vec) :
  dot (map (fun j => a * f j) l) x = a * dot (map f l) x.
Proof.
  revert x. induction l as [|j l IH]; intros [|b x]; simpl; try ring.
  rewrite IH. ring.
Qed.

Lemma dot_map_zero {T : Type} (l : list T) (x : vec) :
  dot (map (fun _ => 0) l) x = 0.
Proof.
  revert x. induction l as [|j l IH]; intros [|b x]; simpl; auto.
  rewrite IH. ring.
Qed.

Lemma dot_all_zero_l (u v : vec) : all_zero u -> dot u v = 0.
Proof.
  intros H. revert v. induction H as [|a u Ha _ IH]; intros [|b v]; simpl; auto.
  rewrite IH, Ha. ring.
Qed.

Lemma vscale_length (c : num) (v : vec) : length (vscale c v) = length v.
Proof. apply length_map. Qed.

Lemma nth_vscale (c : num) (v : vec) (k : nat) :
  nth k (vscale c v) 0 = c * nth k v 0.
Proof.
  revert k. induction v as [|a v IH]; intros [|k]; simpl; auto; ring.
Qed.

Lemma nth_vsub (u v : vec) (k : nat) :
  length u = length v -> nth k (vsub u v) 0 = nth k u 0 - nth k v 0.
Proof.
  revert v k. induction u as [|a u IH]; intros [|b v] k H; simpl in *;
    try discriminate.
  - destruct k; ring.
  - destruct k as [|k]; auto.
Qed.

Lemma map_nth_seq (v : vec) (s : nat) :
  map (fun j => nth (j - s) v 0) (seq s (length v)) = v.
Proof.
  revert s. induction v as [|a v IH]; intros s; simpl; auto.
  rewrite Nat.sub_diag. f_equal.
  rewrite <- (IH (S s)) at 2. apply map_ext_in.
  intros j Hj. apply in_seq in Hj.
  replace (j - s)%nat with (S (j - S s)) by lia. reflexivity.
Qed.

Lemma map_nth_seq0 (v : vec) (n : nat) :
  length v = n -> map (fun j => nth j v 0) (seq 0 n) = v.
Proof.
  intros <-. rewrite <- (map_nth_seq v 0) at 2.
  apply map_ext. intros j. now rewrite Nat.sub_0_r.
Qed.

Lemma dot_unit_from (s n i : nat) (v : vec) :
  dot (map (fun k => if (k =? i)%nat then 1 else 0) (seq s n)) v
  = if ((s <=? i) && (i <? s + n))%nat then nth (i - s) v 0 else 0.
Proof.
  revert s v. induction n as [|n IH]; intros s v.
  - cbn [seq map dot].
    destruct (Nat.leb_spec s i); destruct (Nat.ltb_spec i (s + 0)); simpl; auto.
    lia.
  - cbn [seq map]. destruct v as [|b v].
    + cbn [dot]. destruct (_ && _); [now destruct (i - s)%nat | reflexivity].
    + cbn [dot]. rewrite IH.
      destruct (Nat.leb_spec (S s) i); destruct (Nat.ltb_spec i (S s + n));
        destruct (Nat.leb_spec s i); destruct (Nat.ltb_spec i (s + S n));
        destruct (Nat.eqb_spec s i) as [E|Hne];
        cbn [andb]; try lia; try ring.
      * replace (i - s)%nat with (S (i - S s)) by lia. simpl. ring.
      * subst s. rewrite Nat.sub_diag. simpl. ring.
Qed.

Lemma dot_unit (n i : nat) (v : vec) :
  (i < n)%nat -> dot (unit_vec n i) v = nth i v 0.
Proof.
  intros H. unfold unit_vec. rewrite dot_unit_from. simpl.
  replace (i <? n)%nat with true by (symmetry; apply Nat.ltb_lt; lia).
  now rewrite Nat.sub_0_r.
Qed.

Lemma unit_vec_length (n i : nat) : length (unit_vec n i) = n.
Proof. unfold unit_vec. now rewrite length_map, length_seq. Qed.

Lemma nth_map_seq {T : Type} (f : nat -> T) (s n k : nat) (d : T) :
  (k < n)%nat -> nth k (map f (seq s n)) d = f (s + k)%nat.
Proof.
  revert s k. induction n as [|n IH]; intros s k H; [lia|].
  destruct k as [|k]; simpl.
  - now rewrite Nat.add_0_r.
  - rewrite IH by lia. f_equal. lia.
Qed.

Lemma nth_unit_vec (n i k : nat) :
  (k < n)%nat -> nth k (unit_vec n i) 0 = if (k =? i)%nat then 1 else 0.
Proof.
  intros H. unfold unit_vec. now rewrite nth_map_seq.
Qed.

Lemma vsub_map {T : Type} (f g : T -> num) (l : list T) :
  vsub (map f l) (map g l) = map (fun j => f j - g j) l.
Proof. induction l as [|j l IH]; simpl; auto. now rewrite IH. Qed.

Lemma vecmat_length (r : vec) (B : ndarray2) : length (vecmat r B) = shape1 B.
Proof. unfold vecmat. now rewrite length_map, length_seq. Qed.

Lemma vecmat_vscale (c : num) (r : vec) (B : ndarray2) :
  vecmat (vscale c r) B = vscale c (vecmat r B).
Proof.
  unfold vecmat, vscale at 2. rewrite map_map. apply map_ext.
  intros j. apply dot_vscale_l.
Qed.

Lemma vecmat_vsub (r s : vec) (B : ndarray2) :
  length r = length s ->
  vecmat (vsub r s) B = vsub (vecmat r B) (vecmat s B).
Proof.
  intros H. unfold vecmat. rewrite vsub_map. apply map_ext.
  intros j. now apply dot_vsub_l.
Qed.

Lemma nth_col (j i : nat) (rs : list vec) :
  nth i (col j rs) 0 = nth j (nth i rs []) 0.
Proof.
  unfold col. revert i. induction rs as [|r rs IH]; intros [|i]; simpl; auto.
  - now destruct j.
  - now destruct j.
Qed.

Lemma col_length (j : nat) (rs : list vec) : length (col j rs) = length rs.
Proof. apply length_map. Qed.

(** The [i]-th unit row times [M] is the [i]-th row of [M]. *)
Lemma vecmat_unit (M : ndarray2) (n i : nat) :
  wf2 M -> (i < n)%nat -> (i < shape0 M)%nat ->
  vecmat (unit_vec n i) M = nth i (rows2 M) [].
Proof.
  intros Hwf Hi Hi'. unfold vecmat.
  rewrite <- (map_nth_seq0 (nth i (rows2 M) []) (shape1 M)).
  - apply map_ext. intros j. rewrite dot_unit by assumption. apply nth_col.
  - unfold wf2 in Hwf. rewrite Forall_forall in Hwf. apply Hwf.
    apply nth_In. exact Hi'.
Qed.

(** [(r B) . x = r . (B x)] *)
Lemma dot_vecmat (B : ndarray2) (r x : vec) :
  wf2 B -> length x = shape1 B ->
  dot (vecmat r B) x = dot r (mat_apply B x).
Proof.
  destruct B as [c rs]. unfold wf2, mat_apply, vecmat. simpl.
  intros Hwf Hx. revert r. induction rs as [|m rs IH]; intros r.
  - cbn [map]. rewrite dot_nil_r.
    erewrite map_ext; [apply dot_map_zero|].
    intros j. apply dot_nil_r.
  - inversion Hwf as [|? ? Hm Hrs]; subst. destruct r as [|a r].
    + simpl. apply dot_map_zero.
    + simpl. rewrite dot_map_plus, dot_map_scale.
      rewrite map_nth_seq0 by assumption.
      now rewrite IH.
Qed.

Lemma mat_apply_length (A : ndarray2) (x : vec) :
  length (mat_apply A x) = shape0 A.
Proof. apply length_map. Qed.

Lemma matvec_aligned (A : ndarray2) (x : vec) :
  length x = shape1 A -> matvec A x = Ok (mat_apply A x).
Proof.
  intros H. unfold matvec. now rewrite H, Nat.eqb_refl.
Qed.

Lemma matvec_misaligned (A : ndarray2) (x : vec) :
  length x <> shape1 A -> matvec A x = Raise ValueError.
Proof.
  intros H. unfold matvec.
  destruct (Nat.eqb_spec (shape1 A) (length x)); congruence.
Qed.

(* ================================================================= *)
(** * Elimination: [np.linalg.inv] in exact arithmetic *)

Lemma extract_pivot_some (j : nat) (todo : list arow) (p : arow) (rest : list arow) :
  extract_pivot j todo = Some (p, rest) ->
  nth j (fst p) 0 <> 0 /\
  length todo = S (length rest) /\
  (forall x, In x todo <-> x = p \/ In x rest).
Proof.
  revert p rest. induction todo as [|r todo IH]; intros p rest H; simpl in H.
  - discriminate.
  - destruct (is_zero (nth j (fst r) 0)) eqn:Ez.
    + destruct (extract_pivot j todo) as [[p0 others]|] eqn:E; [|discriminate].
      inversion H; subst. destruct (IH _ _ eq_refl) as (Hp & Hlen & Hin).
      split; [exact Hp|]. split; [simpl; now rewrite Hlen|].
      intros x. simpl. rewrite Hin. tauto.
    + inversion H; subst. split; [now apply is_zero_false|].
      split; [reflexivity|]. intros x. simpl. split; intros [?|?]; auto.
Qed.

Lemma extract_pivot_none (j : nat) (todo : list arow) :
  extract_pivot j todo = None ->
  forall p, In p todo -> nth j (fst p) 0 = 0.
Proof.
  induction todo as [|r todo IH]; intros H p Hp; simpl in *; [tauto|].
  destruct (is_zero (nth j (fst r) 0)) eqn:Ez; [|discriminate].
  destruct (extract_pivot j todo) as [[p0 others]|] eqn:E; [discriminate|].
  destruct Hp as [<-|Hp]; [now apply is_zero_true | now apply IH].
Qed.

Section Elimination_step.

Variable M : ndarray2.
Variables n j : nat.
Variable p : arow.
Hypothesis p_left_length : length (fst p) = n.
Hypothesis p_right_length : length (snd p) = n.
Hypothesis p_rel : fst p = vecmat (snd p) M.
Hypothesis p_pivot : nth j (fst p) 0 <> 0.

Let p' : arow := arow_scale (/ nth j (fst p) 0) p.

Lemma pivot_row_lengths : length (fst p') = n /\ length (snd p') = n.
Proof. unfold p', arow_scale. simpl. now rewrite !vscale_length. Qed.

Lemma pivot_row_rel : fst p' = vecmat (snd p') M.
Proof.
  unfold p', arow_scale. simpl. rewrite vecmat_vscale. now rewrite <- p_rel.
Qed.

Lemma pivot_row_nth (k : nat) :
  nth k (fst p') 0 = / nth j (fst p) 0 * nth k (fst p) 0.
Proof. unfold p', arow_scale. simpl. apply nth_vscale. Qed.

Lemma pivot_row_one : nth j (fst p') 0 = 1.
Proof. rewrite pivot_row_nth. now apply Qcmult_inv_l. Qed.

Lemma pivot_row_dot (x : vec) :
  dot (fst p') x = 0 -> dot (fst p) x = 0.
Proof.
  unfold p', arow_scale. simpl. rewrite dot_vscale_l. intros H.
  apply Qcmult_integral in H as [H|H]; auto.
  exfalso. apply p_pivot.
  rewrite <- (Qcmult_1_l (nth j (fst p) 0)).
  rewrite <- (Qcmult_inv_r (nth j (fst p) 0)) by assumption.
  rewrite H. ring.
Qed.

Variable r : arow.
Hypothesis r_left_length : length (fst r) = n.
Hypothesis r_right_length : length (snd r) = n.
Hypothesis r_rel : fst r = vecmat (snd r) M.

Lemma elim_row_lengths :
  length (fst (arow_elim j p' r)) = n /\ length (snd (arow_elim j p' r)) = n.
Proof.
  destruct pivot_row_lengths as [H1 H2]. unfold arow_elim. cbn [fst snd].
  rewrite !vsub_length, !vscale_length, H1, H2. lia.
Qed.

Lemma elim_row_rel :
  fst (arow_elim j p' r) = vecmat (snd (arow_elim j p' r)) M.
Proof.
  destruct pivot_row_lengths as [H1 H2]. unfold arow_elim. cbn [fst snd].
  rewrite vecmat_vsub by (rewrite vscale_length; lia).
  rewrite vecmat_vscale, <- pivot_row_rel. now rewrite <- r_rel.
Qed.

Lemma elim_row_nth (k : nat) :
  nth k (fst (arow_elim j p' r)) 0
  = nth k (fst r) 0 - nth j (fst r) 0 * nth k (fst p') 0.
Proof.
  destruct pivot_row_lengths as [H1 H2]. unfold arow_elim. cbn [fst snd].
  rewrite nth_vsub by (rewrite vscale_length; lia).
  now rewrite nth_vscale.
Qed.

Lemma elim_row_dot (x : vec) :
  dot (fst (arow_elim j p' r)) x
  = dot (fst r) x - nth j (fst r) 0 * dot (fst p') x.
Proof.
  destruct pivot_row_lengths as [H1 H2]. unfold arow_elim. cbn [fst snd].
  rewrite dot_vsub_l by (rewrite vscale_length; lia).
  now rewrite dot_vscale_l.
Qed.

End Elimination_step.

Lemma gj_inv_step (M : ndarray2) (n j : nat) (done todo : list arow)
    (p : arow) (rest : list arow) :
  gj_inv M n j done todo ->
  extract_pivot j todo = Some (p, rest) ->
  gj_inv M n (S j)
    (map (arow_elim j (arow_scale (/ nth j (fst p) 0) p)) done
       ++ [arow_scale (/ nth j (fst p) 0) p])
    (map (arow_elim j (arow_scale (/ nth j (fst p) 0) p)) rest).
Proof.
  intros (Hlen & Htot & Hrows & Hdone & Htodo & Hker) Hex.
  destruct (extract_pivot_some j todo p rest Hex) as (Hpiv & Hlen2 & Hin).
  assert (Hp : In p todo) by (apply Hin; auto).
  destruct (Hrows p) as (Hp1 & Hp2 & Hp3); [apply in_or_app; auto|].
  assert (Hold : forall r, In r done \/ In r rest -> In r (done ++ todo)).
  { intros r [Hr|Hr]; apply in_or_app; [auto | right; apply Hin; auto]. }
  set (p' := arow_scale (/ nth j (fst p) 0) p).
  assert (Hp'0 : forall k, (k < j)%nat -> nth k (fst p') 0 = 0).
  { intros k Hk. unfold p'. rewrite pivot_row_nth, (Htodo p Hp k Hk). ring. }
  assert (Hp'1 : nth j (fst p') 0 = 1) by (apply pivot_row_one; assumption).
  assert (Hsplit : forall q0,
             In q0 ((map (arow_elim j p') done ++ [p']) ++ map (arow_elim j p') rest) ->
             q0 = p' \/ exists r, (In r done \/ In r rest) /\ q0 = arow_elim j p' r).
  { intros q0 Hq. apply in_app_or in Hq as [Hq|Hq].
    - apply in_app_or in Hq as [Hq|[<-|[]]]; auto.
      apply in_map_iff in Hq as (r & <- & Hr). right. exists r. auto.
    - apply in_map_iff in Hq as (r & <- & Hr). right. exists r. auto. }
  unfold gj_inv. split; [|split; [|split; [|split; [|split]]]].
  - rewrite length_app, length_map. simpl. lia.
  - rewrite length_app, !length_map. simpl. lia.
  - intros q0 Hq. apply Hsplit in Hq as [->|(r & Hr & ->)].
    + destruct (pivot_row_lengths n j p Hp1 Hp2) as [H1 H2].
      repeat split; auto. now apply pivot_row_rel.
    + destruct (Hrows r (Hold r Hr)) as (Hr1 & Hr2 & Hr3).
      destruct (elim_row_lengths n j p Hp1 Hp2 r Hr1 Hr2) as [H1 H2].
      repeat split; auto. now apply elim_row_rel with (n := n).
  - intros i q0 Hq k Hk.
    destruct (Nat.lt_ge_cases i (length done)) as [Hi|Hi].
    + rewrite nth_error_app1 in Hq by (rewrite length_map; lia).
      rewrite nth_error_map in Hq.
      destruct (nth_error done i) as [r|] eqn:Er; [|discriminate].
      inversion Hq; subst q0. clear Hq.
      assert (Hr : In r done) by (eapply nth_error_In; eauto).
      destruct (Hrows r (Hold r (or_introl Hr))) as (Hr1 & Hr2 & Hr3).
      unfold p'. rewrite (elim_row_nth n j p Hp1 Hp2 r Hr1 Hr2). fold p'.
      destruct (Nat.eq_dec k j) as [->|Hne].
      * rewrite Hp'1.
        replace (j =? i)%nat with false
          by (symmetry; apply Nat.eqb_neq; lia).
        ring.
      * rewrite Hp'0 by lia. rewrite (Hdone i r Er k) by lia. ring.
    + rewrite nth_error_app2 in Hq by (rewrite length_map; lia).
      rewrite length_map in Hq.
      destruct (i - length done)%nat as [|d] eqn:Ed.
      * simpl in Hq. inversion Hq; subst q0.
        assert (i = j) by lia. subst i.
        destruct (Nat.eqb_spec k j) as [->|Hne]; auto.
        apply Hp'0. lia.
      * simpl in Hq. now destruct d.
  - intros q0 Hq k Hk. apply in_map_iff in Hq as (r & <- & Hr).
    destruct (Hrows r (Hold r (or_intror Hr))) as (Hr1 & Hr2 & Hr3).
    assert (Hr' : In r todo) by (apply Hin; auto).
    unfold p'. rewrite (elim_row_nth n j p Hp1 Hp2 r Hr1 Hr2). fold p'.
    destruct (Nat.eq_dec k j) as [->|Hne].
    + rewrite Hp'1. ring.
    + rewrite Hp'0 by lia. rewrite (Htodo r Hr' k) by lia. ring.
  - intros x Hx Hall. apply Hker; auto.
    assert (Hp'x : dot (fst p') x = 0).
    { apply Hall. apply in_or_app. left. apply in_or_app. right. now left. }
    assert (Hrest : forall r, In r done \/ In r rest -> dot (fst r) x = 0).
    { intros r Hr.
      destruct (Hrows r (Hold r Hr)) as (Hr1 & Hr2 & Hr3).
      assert (Hq : dot (fst (arow_elim j p' r)) x = 0).
      { apply Hall. destruct Hr as [Hr|Hr].
        - apply in_or_app. left. apply in_or_app. left. now apply in_map.
        - apply in_or_app. right. now apply in_map. }
      unfold p' in Hq. rewrite (elim_row_dot n j p Hp1 Hp2 r Hr1 Hr2) in Hq.
      fold p' in Hq. rewrite Hp'x in Hq.
      rewrite <- Hq. ring. }
    intros q0 Hq. apply in_app_or in Hq as [Hq|Hq]; [apply Hrest; auto|].
    apply Hin in Hq as [->|Hq]; [|apply Hrest; auto].
    now apply pivot_row_dot with (j := j).
Qed.

Lemma gauss_jordan_inv (M : ndarray2) (n k : nat) :
  forall j done todo res,
    gj_inv M n j done todo -> (j + k = n)%nat ->
    gauss_jordan k j done todo = Some res ->
    gj_inv M n n res [].
Proof.
  induction k as [|k IH]; intros j done todo res Hinv Hjk Hgj; simpl in Hgj.
  - inversion Hgj; subst res. assert (j = n) by lia. subst j.
    assert (Ht : todo = []).
    { destruct Hinv as (Hlen & Htot & _). apply length_zero_iff_nil. lia. }
    subst todo. exact Hinv.
  - destruct (extract_pivot j todo) as [[p rest]|] eqn:Ex; [|discriminate].
    apply (IH (S j) _ _ res (gj_inv_step M n j done todo p rest Hinv Ex));
      [lia | exact Hgj].
Qed.

Lemma dot_app (a b c d : vec) :
  length a = length c -> dot (a ++ b) (c ++ d) = dot a c + dot b d.
Proof.
  revert c. induction a as [|x a IH]; intros [|z c] H; simpl in *;
    try discriminate.
  - ring.
  - rewrite IH by lia. ring.
Qed.

Lemma dot_repeat_zero_r (u : vec) (m : nat) : dot u (repeat 0 m) = 0.
Proof.
  revert m. induction u as [|a u IH]; intros [|m]; simpl; auto.
  rewrite IH. ring.
Qed.

Lemma split_at (l : vec) (j : nat) :
  (j < length l)%nat -> l = firstn j l ++ nth j l 0 :: skipn (S j) l.
Proof.
  revert j. induction l as [|a l IH]; intros j H; simpl in H; [lia|].
  destruct j as [|j]; simpl; auto. f_equal. apply IH. lia.
Qed.

Lemma firstn_by_nth (l : vec) (j : nat) (f : nat -> num) :
  (j <= length l)%nat ->
  (forall k, (k < j)%nat -> nth k l 0 = f k) ->
  firstn j l = map f (seq 0 j).
Proof.
  intros Hj H. apply (nth_ext _ _ 0 0).
  - rewrite length_firstn, length_map, length_seq. lia.
  - intros k Hk. rewrite length_firstn in Hk.
    rewrite nth_firstn.
    replace (k <? j)%nat with true by (symmetry; apply Nat.ltb_lt; lia).
    rewrite nth_map_seq by lia. apply H. lia.
Qed.

Lemma kernel_vec_length (n j : nat) (done : list arow) :
  length done = j -> (j < n)%nat -> length (kernel_vec n j done) = n.
Proof.
  intros H Hj. unfold kernel_vec.
  rewrite length_app, length_map. simpl. rewrite repeat_length. lia.
Qed.

Lemma kernel_vec_not_zero (n j : nat) (done : list arow) :
  ~ all_zero (kernel_vec n j done).
Proof.
  unfold kernel_vec, all_zero. intros H.
  apply Forall_app in H as [_ H]. inversion H as [|? ? H1 _]; subst.
  now apply Q_apart_0_1.
Qed.

(** A column without a pivot: the matrix sends [kernel_vec] to zero. *)
Lemma gj_no_pivot (M : ndarray2) (n j : nat) (done todo : list arow) :
  gj_inv M n j done todo -> (j < n)%nat ->
  extract_pivot j todo = None ->
  all_zero (mat_apply M (kernel_vec n j done)).
Proof.
  intros (Hlen & Htot & Hrows & Hdone & Htodo & Hker) Hj Hex.
  apply Hker; [now apply kernel_vec_length|].
  intros p Hp. destruct (Hrows p Hp) as (Hp1 & _ & _).
  rewrite (split_at (fst p) j) by lia.
  unfold kernel_vec. rewrite dot_app
    by (rewrite length_firstn, length_map; lia).
  cbn [dot]. rewrite dot_repeat_zero_r.
  apply in_app_or in Hp as [Hp|Hp].
  - apply In_nth_error in Hp as [i Hi].
    assert (Hij : (i < j)%nat)
      by (rewrite <- Hlen; apply nth_error_Some; congruence).
    rewrite (firstn_by_nth (fst p) j (fun k => if (k =? i)%nat then 1 else 0))
      by (try lia; intros k Hk; now apply (Hdone i p Hi)).
    fold (unit_vec j i). rewrite dot_unit by assumption.
    pose (d0 := (@nil Qc, @nil Qc)).
    rewrite (nth_indep _ 0 ((fun d : arow => - nth j (fst d) 0) d0))
      by (rewrite length_map; lia).
    rewrite (map_nth (fun d : arow => - nth j (fst d) 0)).
    rewrite (nth_error_nth done i d0 Hi). ring.
  - rewrite (firstn_by_nth (fst p) j (fun _ => 0))
      by (try lia; intros k Hk; now apply (Htodo p Hp)).
    rewrite dot_map_zero. rewrite (extract_pivot_none j todo Hex p Hp). ring.
Qed.

Lemma gauss_jordan_fails (M : ndarray2) (n k : nat) :
  forall j done todo,
    gj_inv M n j done todo -> (j + k = n)%nat ->
    gauss_jordan k j done todo = None ->
    exists x, length x = n /\ ~ all_zero x /\ all_zero (mat_apply M x).
Proof.
  induction k as [|k IH]; intros j done todo Hinv Hjk Hgj; simpl in Hgj.
  - discriminate.
  - destruct (extract_pivot j todo) as [[p rest]|] eqn:Ex.
    + apply (IH (S j) _ _ (gj_inv_step M n j done todo p rest Hinv Ex));
        [lia | exact Hgj].
    + exists (kernel_vec n j done). split; [|split].
      * destruct Hinv as (Hlen & _). apply kernel_vec_length; [auto | lia].
      * apply kernel_vec_not_zero.
      * apply gj_no_pivot with (todo := todo); auto. lia.
Qed.

Lemma identity_rows_length (n : nat) : length (rows2 (identity n)) = n.
Proof. simpl. now rewrite length_map, length_seq. Qed.

Lemma in_combine_identity (rs : list vec) (n : nat) (p : arow) :
  length rs = n ->
  (In p (combine rs (rows2 (identity n))) <->
   exists i, (i < n)%nat /\ p = (nth i rs [], unit_vec n i)).
Proof.
  intros Hn. pose proof (identity_rows_length n) as Hid.
  assert (Hnth : forall i, (i < n)%nat ->
            nth i (combine rs (rows2 (identity n))) ([], unit_vec n 0)
            = (nth i rs [], unit_vec n i)).
  { intros i Hi. rewrite combine_nth by lia. f_equal.
    simpl. now rewrite nth_map_seq. }
  assert (Hlen : length (combine rs (rows2 (identity n))) = n)
    by (rewrite length_combine; lia).
  split.
  - intros H. apply (In_nth _ _ ([], unit_vec n 0)) in H as (i & Hi & <-).
    exists i. split; [lia|]. apply Hnth. lia.
  - intros (i & Hi & ->). rewrite <- Hnth by assumption.
    apply nth_In. lia.
Qed.

Lemma gj_inv_init (M : ndarray2) (n : nat) :
  wf2 M -> shape0 M = n -> shape1 M = n ->
  gj_inv M n 0 [] (combine (rows2 M) (rows2 (identity n))).
Proof.
  intros Hwf H0 H1. unfold shape0 in H0.
  unfold gj_inv. cbn [app length].
  split; [reflexivity|]. split.
  { rewrite length_combine, identity_rows_length. lia. }
  split; [|split; [|split]].
  - intros p Hp. apply in_combine_identity in Hp as (i & Hi & ->); auto.
    cbn [fst snd]. split; [|split].
    + unfold wf2 in Hwf. rewrite Forall_forall in Hwf.
      rewrite Hwf; auto. apply nth_In. lia.
    + apply unit_vec_length.
    + symmetry. apply vecmat_unit; auto. unfold shape0. lia.
  - intros [|i] p Hp; discriminate.
  - intros p _ k Hk. lia.
  - intros x Hx Hall. unfold all_zero, mat_apply. apply Forall_forall.
    intros a Ha. apply in_map_iff in Ha as (r & <- & Hr).
    apply (In_nth _ _ []) in Hr as (i & Hi & <-).
    apply (Hall (nth i (rows2 M) [], unit_vec n i)).
    apply in_combine_identity; auto. exists i. split; [lia | reflexivity].
Qed.

Lemma map_by_index {T U : Type} (f : T -> U) (g : nat -> U) (l : list T) (s : nat) :
  (forall i b, nth_error l i = Some b -> f b = g (s + i)%nat) ->
  map f l = map g (seq s (length l)).
Proof.
  revert s. induction l as [|a l IH]; intros s H; simpl; auto.
  f_equal.
  - rewrite (H O a eq_refl). f_equal. lia.
  - apply IH. intros i b Hi. rewrite (H (S i) b Hi). f_equal. lia.
Qed.

Lemma all_zero_nth (x : vec) :
  (forall i, (i < length x)%nat -> nth i x 0 = 0) -> all_zero x.
Proof.
  intros H. apply Forall_forall. intros a Ha.
  apply (In_nth _ _ 0) in Ha as (i & Hi & <-). now apply H.
Qed.

Lemma unit_row_by_nth (l : vec) (n i : nat) :
  length l = n ->
  (forall k, (k < n)%nat -> nth k l 0 = if (k =? i)%nat then 1 else 0) ->
  l = unit_vec n i.
Proof.
  intros Hl H. apply (nth_ext _ _ 0 0).
  - now rewrite unit_vec_length.
  - intros k Hk. rewrite nth_unit_vec by lia. apply H. lia.
Qed.

(** ** What [np.linalg.inv] returns *)

(** A returned matrix is a left inverse: its [i]-th row times [M] is the
    [i]-th unit row. *)
Lemma linalg_inv_rows (M B : ndarray2) :
  wf2 M -> shape0 M = shape1 M ->
  linalg_inv M = Ok B ->
  shape1 B = shape0 M /\ shape0 B = shape0 M /\ wf2 B /\
  forall i b, nth_error (rows2 B) i = Some b ->
    vecmat b M = unit_vec (shape0 M) i.
Proof.
  intros Hwf Hsq H. unfold linalg_inv in H.
  rewrite Hsq, Nat.eqb_refl in H. rewrite <- Hsq in H.
  destruct (gauss_jordan _ _ _ _) as [res|] eqn:Egj; [|discriminate].
  inversion H; subst B. clear H.
  pose proof (gauss_jordan_inv M (shape0 M) (shape0 M) 0 [] _ res
                (gj_inv_init M (shape0 M) Hwf eq_refl (eq_sym Hsq))
                eq_refl Egj) as (Hlen & _ & Hrows & Hdone & _ & _).
  rewrite app_nil_r in Hrows.
  unfold wf2. cbn [shape1 rows2].
  split; [reflexivity|].
  split; [unfold shape0 at 1; cbn [rows2]; now rewrite length_map|]. split.
  - apply Forall_forall. intros b Hb. apply in_map_iff in Hb as (p & <- & Hp).
    now destruct (Hrows p Hp) as (_ & H2 & _).
  - intros i b Hb. rewrite nth_error_map in Hb.
    destruct (nth_error res i) as [p|] eqn:Ep; [|discriminate].
    inversion Hb; subst b. clear Hb.
    destruct (Hrows p (nth_error_In _ _ Ep)) as (H1 & _ & H3).
    rewrite <- H3. apply unit_row_by_nth; [assumption|].
    intros k Hk. now apply (Hdone i p Ep).
Qed.

Lemma linalg_inv_outcome (M : ndarray2) :
  linalg_inv M = Raise LinAlgError \/ exists B, linalg_inv M = Ok B.
Proof.
  unfold linalg_inv. destruct (_ =? _)%nat; auto.
  destruct (gauss_jordan _ _ _ _); eauto.
Qed.

(** It raises exactly on the singular matrices. *)
Lemma linalg_inv_raises_iff (M : ndarray2) :
  wf2 M -> shape0 M = shape1 M ->
  (linalg_inv M = Raise LinAlgError <-> singular M).
Proof.
  intros Hwf Hsq. split.
  - intros H. unfold linalg_inv in H. rewrite Hsq, Nat.eqb_refl in H.
    rewrite <- Hsq in H.
    destruct (gauss_jordan _ _ _ _) as [res|] eqn:Egj; [discriminate|].
    destruct (gauss_jordan_fails M (shape0 M) (shape0 M) 0 [] _
                (gj_inv_init M (shape0 M) Hwf eq_refl (eq_sym Hsq))
                eq_refl Egj) as (x & Hx & Hnz & Hz).
    exists x. rewrite <- Hsq. auto.
  - intros (x & Hx & Hnz & Hz).
    destruct (linalg_inv_outcome M) as [H|[B H]]; auto.
    exfalso. apply Hnz.
    destruct (linalg_inv_rows M B Hwf Hsq H) as (H1 & H0 & _ & Hrows).
    apply all_zero_nth. intros i Hi.
    assert (Hi' : (i < length (rows2 B))%nat) by (unfold shape0 in *; lia).
    destruct (nth_error (rows2 B) i) as [b|] eqn:Eb;
      [|apply nth_error_None in Eb; lia].
    rewrite <- (dot_unit (shape0 M) i x) by lia.
    rewrite <- (Hrows i b Eb), dot_vecmat by auto.
    rewrite dot_comm. now apply dot_all_zero_l.
Qed.

(* ================================================================= *)
(** * The normal equations *)

Lemma Qc_square_nonneg (a : num) : 0 <= a * a.
Proof.
  destruct (Qclt_le_dec a 0) as [H|H].
  - replace (a * a) with ((- a) * (- a)) by ring.
    assert (H' : 0 <= - a).
    { replace 0 with (- 0) by ring. apply Qcopp_le_compat.
      now apply Qclt_le_weak. }
    replace 0 with (0 * - a) at 1 by ring.
    now apply Qcmult_le_compat_r.
  - replace 0 with (0 * a) at 1 by ring. now apply Qcmult_le_compat_r.
Qed.

Lemma dot_self_nonneg (v : vec) : 0 <= dot v v.
Proof.
  induction v as [|a v IH]; simpl.
  - apply Qcle_refl.
  - replace 0 with (0 + 0) by ring.
    apply Qcplus_le_compat; [apply Qc_square_nonneg | exact IH].
Qed.

Lemma dot_self_zero (v : vec) : dot v v = 0 -> all_zero v.
Proof.
  induction v as [|a v IH]; simpl; intros H; constructor.
  - assert (Ha : a * a = 0).
    { apply Qcle_antisym; [|apply Qc_square_nonneg].
      rewrite <- H. rewrite <- (Qcplus_0_r (a * a)) at 1.
      apply Qcplus_le_compat; [apply Qcle_refl | apply dot_self_nonneg]. }
    apply Qcmult_integral in Ha. tauto.
  - apply IH. apply Qcle_antisym; [|apply dot_self_nonneg].
    rewrite <- H. rewrite <- (Qcplus_0_l (dot v v)) at 1.
    apply Qcplus_le_compat; [apply Qc_square_nonneg | apply Qcle_refl].
Qed.

Lemma augment_wf (X : ndarray2) : wf2 X -> wf2 (augment X).
Proof.
  unfold wf2, augment. simpl. intros H. apply Forall_forall.
  intros r Hr. apply in_map_iff in Hr as (r0 & <- & Hr0).
  rewrite Forall_forall in H. simpl. now rewrite (H r0 Hr0).
Qed.

Lemma transpose_wf (A : ndarray2) : wf2 (transpose A).
Proof.
  unfold wf2, transpose. simpl. apply Forall_forall.
  intros r Hr. apply in_map_iff in Hr as (j & <- & _). apply col_length.
Qed.

Lemma transpose_shape0 (A : ndarray2) : shape0 (transpose A) = shape1 A.
Proof. unfold shape0, transpose. simpl. now rewrite length_map, length_seq. Qed.

Lemma matmul_transpose_self (A : ndarray2) :
  matmul (transpose A) A = Ok (normal_matrix A).
Proof. unfold matmul. simpl. now rewrite Nat.eqb_refl. Qed.

Lemma normal_matrix_wf (A : ndarray2) : wf2 (normal_matrix A).
Proof.
  unfold wf2, normal_matrix. simpl. apply Forall_forall.
  intros r Hr. apply in_map_iff in Hr as (r0 & <- & _). apply vecmat_length.
Qed.

Lemma normal_matrix_square (A : ndarray2) :
  shape0 (normal_matrix A) = shape1 (normal_matrix A).
Proof.
  unfold shape0, normal_matrix. simpl. now rewrite !length_map, length_seq.
Qed.

(** [A^T v], computed on the rows of [A.T], is the row vector [v] times [A]. *)
Lemma transpose_apply (A : ndarray2) (v : vec) :
  mat_apply (transpose A) v = vecmat v A.
Proof.
  unfold mat_apply, transpose, vecmat. simpl. rewrite map_map.
  apply map_ext. intros j. apply dot_comm.
Qed.

(** [(A^T A) x = A^T (A x)] *)
Lemma normal_matrix_apply (A : ndarray2) (x : vec) :
  wf2 A -> length x = shape1 A ->
  mat_apply (normal_matrix A) x = mat_apply (transpose A) (mat_apply A x).
Proof.
  intros Hwf Hx. rewrite transpose_apply.
  unfold mat_apply at 1. unfold normal_matrix, transpose, vecmat at 2.
  simpl. rewrite !map_map. apply map_ext. intros j.
  rewrite dot_vecmat by assumption. apply dot_comm.
Qed.

Lemma normal_matrix_kernel (A : ndarray2) (x : vec) :
  wf2 A -> length x = shape1 A ->
  all_zero (mat_apply (normal_matrix A) x) -> all_zero (mat_apply A x).
Proof.
  intros Hwf Hx Hz. apply dot_self_zero.
  rewrite <- (dot_vecmat A (mat_apply A x) x Hwf Hx).
  rewrite <- transpose_apply, <- (normal_matrix_apply A x Hwf Hx).
  now apply dot_all_zero_l.
Qed.

Lemma vecmat_all_zero (v : vec) (A : ndarray2) :
  all_zero v -> all_zero (vecmat v A).
Proof.
  intros H. unfold vecmat. apply Forall_forall. intros a Ha.
  apply in_map_iff in Ha as (j & <- & _). now apply dot_all_zero_l.
Qed.

(** Dependent columns of [A] make [A^T A] singular, and conversely. *)
Lemma normal_matrix_singular_iff (A : ndarray2) :
  wf2 A ->
  (singular (normal_matrix A) <->
   exists x, length x = shape1 A /\ ~ all_zero x /\ all_zero (mat_apply A x)).
Proof.
  intros Hwf. split; intros (x & Hx & Hnz & Hz); exists x;
    (split; [exact Hx|]); (split; [exact Hnz|]).
  - now apply normal_matrix_kernel.
  - rewrite normal_matrix_apply, transpose_apply by assumption.
    now apply vecmat_all_zero.
Qed.

Lemma independent_not_singular (A : ndarray2) :
  wf2 A -> independent_columns A -> ~ singular (normal_matrix A).
Proof.
  intros Hwf Hind Hs. apply (proj1 (normal_matrix_singular_iff A Hwf)) in Hs.
  destruct Hs as (x & Hx & Hnz & Hz). apply Hnz. now apply Hind.
Qed.

Lemma closed_form_unfold (X : ndarray2) (y : vec) :
  linear_regression_closed_form X y
  = (B <- linalg_inv (normal_matrix (augment X)) ;;
     P <- matmul B (transpose (augment X)) ;;
     matvec P y)%result.
Proof.
  unfold linear_regression_closed_form.
  rewrite np_c_ones. cbn [bind]. now rewrite matmul_transpose_self.
Qed.

Lemma linalg_inv_shape1 (M B : ndarray2) :
  linalg_inv M = Ok B -> shape1 B = shape0 M.
Proof.
  unfold linalg_inv. destruct (_ =? _)%nat; [|discriminate].
  destruct (gauss_jordan _ _ _ _) as [res|] eqn:E; [|discriminate].
  intros H. now inversion H.
Qed.

Lemma normal_matrix_shape0 (A : ndarray2) : shape0 (normal_matrix A) = shape1 A.
Proof. now rewrite normal_matrix_square. Qed.

(** Once the inversion has returned [B], the closed form is [B (A^T y)]. *)
Lemma closed_form_value (X : ndarray2) (y : vec) (B : ndarray2) :
  length y = shape0 X ->
  linalg_inv (normal_matrix (augment X)) = Ok B ->
  linear_regression_closed_form X y
  = Ok (mat_apply B (mat_apply (transpose (augment X)) y)).
Proof.
  intros Hy HB. rewrite closed_form_unfold, HB. cbn [bind].
  unfold matmul.
  rewrite (linalg_inv_shape1 _ _ HB), normal_matrix_shape0, transpose_shape0.
  rewrite Nat.eqb_refl. cbn [bind].
  rewrite matvec_aligned by (simpl; now rewrite augment_shape0).
  f_equal. unfold mat_apply at 1. cbn [rows2]. rewrite map_map.
  apply map_ext. intros b. apply dot_vecmat.
  - apply transpose_wf.
  - simpl. now rewrite augment_shape0.
Qed.

(** The matrix returned by the inversion undoes [M]. *)
Lemma left_inverse_apply (M B : ndarray2) (x : vec) :
  wf2 M -> shape0 M = shape1 M -> linalg_inv M = Ok B ->
  length x = shape1 M ->
  mat_apply B (mat_apply M x) = x.
Proof.
  intros Hwf Hsq HB Hx.
  destruct (linalg_inv_rows M B Hwf Hsq HB) as (H1 & H0 & _ & Hrows).
  unfold mat_apply at 1.
  rewrite (map_by_index (fun r => dot r (mat_apply M x))
             (fun i => nth i x 0) (rows2 B) 0).
  - fold (shape0 B). rewrite H0, Hsq. apply map_nth_seq0. exact Hx.
  - intros i b Hb. rewrite <- (dot_vecmat M b x Hwf Hx).
    rewrite (Hrows i b Hb). cbn [Nat.add]. apply dot_unit.
    rewrite <- H0. unfold shape0. apply nth_error_Some. congruence.
Qed.

(** A mismatch between Target Vector and row count stops the closed form:
    at the inversion when [A^T A] is singular, at the last product
    otherwise. *)
Lemma closed_form_length_mismatch (X : ndarray2) (y : vec) :
  length y <> shape0 X ->
  linear_regression_closed_form X y = Raise LinAlgError \/
  linear_regression_closed_form X y = Raise ValueError.
Proof.
  intros Hy. rewrite closed_form_unfold.
  destruct (linalg_inv_outcome (normal_matrix (augment X))) as [H|[B H]];
    rewrite H; cbn [bind]; auto.
  right. unfold matmul.
  rewrite (linalg_inv_shape1 _ _ H), normal_matrix_shape0, transpose_shape0.
  rewrite Nat.eqb_refl. cbn [bind].
  apply matvec_misaligned. simpl. now rewrite augment_shape0.
Qed.

Lemma closed_form_singular (X : ndarray2) (y : vec) :
  wf2 X -> singular (normal_matrix (augment X)) ->
  linear_regression_closed_form X y = Raise LinAlgError.
Proof.
  intros Hwf Hs. rewrite closed_form_unfold.
  apply (linalg_inv_raises_iff (normal_matrix (augment X))
           (normal_matrix_wf _) (normal_matrix_square _)) in Hs.
  now rewrite Hs.
Qed.

(** A Design Matrix without rows: [A^T A] is the zero matrix. *)
Lemma closed_form_no_rows (X : ndarray2) (y : vec) :
  shape0 X = 0%nat -> linear_regression_closed_form X y = Raise LinAlgError.
Proof.
  intros H0. assert (Hr : rows2 X = []) by now apply length_zero_iff_nil.
  assert (Hwf : wf2 X) by (unfold wf2; rewrite Hr; constructor).
  apply closed_form_singular; auto.
  apply normal_matrix_singular_iff; [now apply augment_wf|].
  exists (unit_vec (S (shape1 X)) 0). split; [apply unit_vec_length|]. split.
  - unfold unit_vec. simpl. intros H. inversion H as [|? ? H1 _]; subst.
    now apply Q_apart_0_1.
  - unfold mat_apply, augment. simpl. rewrite Hr. constructor.
Qed.

(** [A^T A] is symmetric: its [i]-th row is its [i]-th column. *)
Lemma normal_matrix_symmetric (A : ndarray2) (i : nat) :
  (i < shape1 A)%nat ->
  nth i (rows2 (normal_matrix A)) []
  = mat_apply (normal_matrix A) (unit_vec (shape1 A) i).
Proof.
  intros Hi. unfold mat_apply, normal_matrix, transpose. cbn [rows2 shape1].
  rewrite !map_map.
  rewrite (nth_map_seq (fun j => vecmat (col j (rows2 A)) A) 0 (shape1 A) i [])
    by assumption.
  cbn [Nat.add]. unfold vecmat at 1. apply map_ext_in. intros j Hj.
  apply in_seq in Hj.
  rewrite (dot_comm (vecmat _ _) (unit_vec _ _)).
  rewrite (dot_unit (shape1 A) i) by assumption.
  unfold vecmat. rewrite (nth_map_seq _ 0 (shape1 A) i 0) by assumption.
  cbn [Nat.add]. apply dot_comm.
Qed.

(** For the symmetric [A^T A] the matrix that the inversion returns is a
    right inverse as well. *)
Lemma normal_matrix_right_inverse (A B : ndarray2) :
  linalg_inv (normal_matrix A) = Ok B ->
  matmul (normal_matrix A) B = Ok (identity (shape1 A)).
Proof.
  intros HB. set (M := normal_matrix A) in *.
  pose proof (normal_matrix_wf A) as Hwf. fold M in Hwf.
  pose proof (normal_matrix_square A) as Hsq. fold M in Hsq.
  assert (Hn : shape0 M = shape1 A) by apply normal_matrix_shape0.
  destruct (linalg_inv_rows M B Hwf Hsq HB) as (H1 & H0 & HwfB & Hrows).
  assert (Hrow : forall i m, nth_error (rows2 M) i = Some m ->
             (i < shape1 A)%nat /\ length m = shape1 A /\
             mat_apply B m = unit_vec (shape1 A) i).
  { intros i m Hm.
    assert (Hi : (i < shape1 A)%nat).
    { rewrite <- Hn. unfold shape0. apply nth_error_Some. congruence. }
    split; [exact Hi|]. split.
    - unfold wf2 in Hwf. rewrite Forall_forall in Hwf.
      apply (Hwf m). eapply nth_error_In; eauto.
    - rewrite <- (nth_error_nth _ _ [] Hm). unfold M.
      rewrite normal_matrix_symmetric by assumption.
      apply left_inverse_apply; auto. apply unit_vec_length. }
  assert (Hsurj : forall v, length v = shape1 A ->
             mat_apply M (vecmat v B) = v).
  { intros v Hv. unfold mat_apply.
    rewrite (map_by_index (fun r => dot r (vecmat v B))
               (fun i => nth i v 0) (rows2 M) 0).
    - fold (shape0 M). rewrite Hn. now apply map_nth_seq0.
    - intros i m Hm. destruct (Hrow i m Hm) as (Hi & Hlen & Hu).
      rewrite dot_comm, dot_vecmat by (auto; lia).
      rewrite Hu, dot_comm. now apply dot_unit. }
  assert (Hsym : forall v, length v = shape1 A -> mat_apply B v = vecmat v B).
  { intros v Hv. rewrite <- (Hsurj v Hv) at 1.
    apply left_inverse_apply; auto. rewrite vecmat_length. lia. }
  unfold matmul. replace (shape1 M) with (shape0 B) by lia.
  rewrite Nat.eqb_refl. unfold identity. f_equal.
  replace (shape1 B) with (shape1 A) by lia. f_equal.
  rewrite <- Hn at 2. unfold shape0.
  apply map_by_index. intros i m Hm.
  destruct (Hrow i m Hm) as (Hi & Hlen & Hu).
  now rewrite <- Hsym.
Qed.



(* ================================================================= *)
(** * Dependent columns *)


(* ================================================================= *)
(** * The closed form in binary64 *)

Section Binary64_run.

Import PrimFloat.











(** ** The closed form and singular matrices *)





(** ** The closed form and the exact solution *)




(** ** A Target Vector of the wrong length *)



End Binary64_run.

(* ================================================================= *)
(** * Shape disagreements *)






(* ================================================================= *)
(** * The store: what a call writes to *)

Lemma lookup_last (h : store) (o : obj) :
  nth_error (h ++ [o]) (length h) = Some o.
Proof. rewrite nth_error_app2 by lia. now rewrite Nat.sub_diag. Qed.

Lemma lookup_old (h t : store) (l : loc) :
  (l < length h)%nat -> nth_error (h ++ t) l = nth_error h l.
Proof. intros H. now apply nth_error_app1. Qed.

Lemma update_length (l : loc) (o : obj) (h : store) :
  length (update l o h) = length h.
Proof.
  revert l. induction h as [|x h IH]; intros [|l]; simpl; auto.
Qed.

Lemma lookup_update_same (l : loc) (o : obj) (h : store) :
  (l < length h)%nat -> nth_error (update l o h) l = Some o.
Proof.
  revert l. induction h as [|x h IH]; intros [|l] H; simpl in *; try lia; auto.
  apply IH. lia.
Qed.

Lemma lookup_update_other (l l' : loc) (o : obj) (h : store) :
  l <> l' -> nth_error (update l o h) l' = nth_error h l'.
Proof.
  revert l l'. induction h as [|x h IH]; intros [|l] [|l'] H; simpl; auto.
  congruence.
Qed.

Lemma lookup_lt (h : store) (l : loc) (o : obj) :
  nth_error h l = Some o -> (l < length h)%nat.
Proof. intros H. apply nth_error_Some. congruence. Qed.

Lemma frame_refl (b1 b2 : loc) (h : store) : frame b1 b2 h h.
Proof. split; auto. Qed.

Lemma frame_trans (b1 b2 : loc) (h1 h2 h3 : store) :
  frame b1 b2 h1 h2 -> frame b1 b2 h2 h3 -> frame b1 b2 h1 h3.
Proof.
  intros [L1 F1] [L2 F2]. split; [lia|].
  intros l Hl H1 H2. rewrite F2 by (auto; lia). now apply F1.
Qed.

Lemma frame_alloc (b1 b2 : loc) (h h' : store) (o : obj) :
  frame b1 b2 h h' -> frame b1 b2 h (h' ++ [o]).
Proof.
  intros [L F]. split; [rewrite length_app; simpl; lia|].
  intros l Hl H1 H2. rewrite lookup_old by lia. now apply F.
Qed.

Lemma frame_update1 (b1 b2 : loc) (h h' : store) (o : obj) :
  frame b1 b2 h h' -> frame b1 b2 h (update b1 o h').
Proof.
  intros [L F]. split; [rewrite update_length; lia|].
  intros l Hl H1 H2. rewrite lookup_update_other by congruence. now apply F.
Qed.

Lemma frame_update2 (b1 b2 : loc) (h h' : store) (o : obj) :
  frame b1 b2 h h' -> frame b1 b2 h (update b2 o h').
Proof.
  intros [L F]. split; [rewrite update_length; lia|].
  intros l Hl H1 H2. rewrite lookup_update_other by congruence. now apply F.
Qed.

(** ** The primitive steps, run on a store *)

Lemma load1_run (l : loc) (v : vec) (h : store) :
  nth_error h l = Some (Arr1 v) -> load1 l h = (Ok v, h).
Proof. intros H. unfold load1. now rewrite H. Qed.

Lemma load2_run (l : loc) (A : ndarray2) (h : store) :
  nth_error h l = Some (Arr2 A) -> load2 l h = (Ok A, h).
Proof. intros H. unfold load2. now rewrite H. Qed.

Lemma load_list_run (l : loc) (es : list (loc * num)) (h : store) :
  nth_error h l = Some (PyList es) -> load_list l h = (Ok es, h).
Proof. intros H. unfold load_list. now rewrite H. Qed.

Lemma assign_run (l : loc) (o : obj) (h : store) :
  (l < length h)%nat -> assign l o h = (Ok tt, update l o h).
Proof.
  intros H. unfold assign.
  now replace (l <? length h)%nat with true by (symmetry; apply Nat.ltb_lt; lia).
Qed.

Lemma op_2_2_run f a A h :
  nth_error h a = Some (Arr2 A) ->
  op_2_2 f a h = after_alloc (f A) Arr2 h.
Proof.
  intros Ha. unfold op_2_2, bindM, lift, alloc, after_alloc.
  rewrite (load2_run a A h Ha). now destruct (f A).
Qed.

Lemma op_22_2_run f a b A B h :
  nth_error h a = Some (Arr2 A) -> nth_error h b = Some (Arr2 B) ->
  op_22_2 f a b h = after_alloc (f A B) Arr2 h.
Proof.
  intros Ha Hb. unfold op_22_2, bindM, lift, alloc, after_alloc.
  rewrite (load2_run a A h Ha), (load2_run b B h Hb). now destruct (f A B).
Qed.

Lemma op_21_1_run f a v A x h :
  nth_error h a = Some (Arr2 A) -> nth_error h v = Some (Arr1 x) ->
  op_21_1 f a v h = after_alloc (f A x) Arr1 h.
Proof.
  intros Ha Hv. unfold op_21_1, bindM, lift, alloc, after_alloc.
  rewrite (load2_run a A h Ha), (load1_run v x h Hv). now destruct (f A x).
Qed.

Lemma op_11_1_run f u v x z h :
  nth_error h u = Some (Arr1 x) -> nth_error h v = Some (Arr1 z) ->
  op_11_1 f u v h = after_alloc (f x z) Arr1 h.
Proof.
  intros Hu Hv. unfold op_11_1, bindM, lift, alloc, after_alloc.
  rewrite (load1_run u x h Hu), (load1_run v z h Hv). now destruct (f x z).
Qed.

Lemma op_1_1_run f v x h :
  nth_error h v = Some (Arr1 x) ->
  op_1_1 f v h = after_alloc (f x) Arr1 h.
Proof.
  intros Hv. unfold op_1_1, bindM, lift, alloc, after_alloc.
  rewrite (load1_run v x h Hv). now destruct (f x).
Qed.

Lemma bindM_run {A B : Type} (m : M A) (f : A -> M B) (h : store) :
  bindM m f h = match m h with
                | (Ok a, h') => f a h'
                | (Raise e, h') => (Raise e, h')
                | (NaN, h') => (NaN, h')
                end.
Proof. reflexivity. Qed.

Ltac store_len :=
  repeat rewrite ?length_app, ?update_length; cbn [length]; lia.

Ltac store_lookup :=
  repeat match goal with
    | |- nth_error (?H ++ [_]) (length ?H) = _ => apply lookup_last
    | |- nth_error (update ?l _ _) ?l = _ =>
        apply lookup_update_same; store_len
    | |- nth_error (update _ _ _) _ = _ =>
        rewrite lookup_update_other by store_len
    | |- nth_error (_ ++ [_]) _ = _ => rewrite lookup_old by store_len
    end; try eassumption.

Ltac store_frame :=
  repeat first [apply frame_alloc | apply frame_update1 | apply frame_update2];
  apply frame_refl.

Ltac store_stop H :=
  inversion H; subst; cbn [fst snd]; split; [store_frame | reflexivity].

(** One pass of the loop on the store, against the pass of the value-level
    model: it writes to [beta] and to the list object only, and leaves
    there the new vector and one more entry, whose snapshot is a new
    array. *)
Lemma gd_iteration_h_run (X_b y : loc) (n : nat) (lr : num) (beta hist : loc)
    (h : store) (A : ndarray2) (yv b : vec) (es : list (loc * num)) (H : history)
    (r : result unit) (h' : store) :
  nth_error h X_b = Some (Arr2 A) -> nth_error h y = Some (Arr1 yv) ->
  nth_error h beta = Some (Arr1 b) -> nth_error h hist = Some (PyList es) ->
  beta <> hist ->
  gd_iteration_h X_b y n lr beta hist h = (r, h') ->
  frame beta hist h h' /\
  match gd_iteration A yv n lr (b, H) with
  | Ok (b', H') =>
      r = Ok tt /\ nth_error h' beta = Some (Arr1 b') /\
      exists snap loss,
        H' = H ++ [(b', loss)] /\
        nth_error h' hist = Some (PyList (es ++ [(snap, loss)])) /\
        (length h <= snap)%nat /\ nth_error h' snap = Some (Arr1 b')
  | Raise e => r = Raise e
  | NaN => r = NaN
  end.
Proof.
  intros HX Hy Hb Hh Hne Hrun.
  pose proof (lookup_lt h beta _ Hb) as Lb.
  pose proof (lookup_lt h hist _ Hh) as Lh.
  pose proof (lookup_lt h y _ Hy) as Ly.
  pose proof (lookup_lt h X_b _ HX) as LX.
  unfold gd_iteration_h in Hrun. unfold gd_iteration.
  rewrite bindM_run, (op_21_1_run matvec X_b beta A b h HX Hb) in Hrun.
  destruct (matvec A b) as [yp| |]; cbn [after_alloc bind] in *;
    [|store_stop Hrun|store_stop Hrun].
  rewrite bindM_run, (op_11_1_run np_sub y (length h) yv yp) in Hrun
    by store_lookup.
  destruct (np_sub yv yp) as [e| |]; cbn [after_alloc bind] in *;
    [|store_stop Hrun|store_stop Hrun].
  rewrite bindM_run, (op_2_2_run (total1 transpose) X_b A) in Hrun
    by store_lookup.
  cbn [after_alloc total1] in Hrun.
  rewrite bindM_run, (op_2_2_run (total1 neg2) _ (transpose A)) in Hrun
    by store_lookup.
  cbn [after_alloc total1] in Hrun.
  rewrite bindM_run,
    (op_21_1_run matvec _ (length (h ++ [Arr1 yp])) (neg2 (transpose A)) e)
    in Hrun by store_lookup.
  destruct (matvec (neg2 (transpose A)) e) as [g| |]; cbn [after_alloc bind] in *;
    [|store_stop Hrun|store_stop Hrun].
  rewrite bindM_run, (op_1_1_run (fun v => np_div_int v n) _ g) in Hrun
    by store_lookup.
  destruct (np_div_int g n) as [gr| |]; cbn [after_alloc bind] in *;
    [|store_stop Hrun|store_stop Hrun].
  rewrite bindM_run, (op_1_1_run (total1 (vscale lr)) _ gr) in Hrun
    by store_lookup.
  cbn [after_alloc total1] in Hrun.
  rewrite bindM_run, (load1_run beta b) in Hrun by store_lookup.
  rewrite bindM_run, (load1_run _ (vscale lr gr)) in Hrun by store_lookup.
  rewrite bindM_run in Hrun. unfold lift in Hrun.
  destruct (np_isub b (vscale lr gr)) as [b'| |]; cbn [bind] in *;
    [|store_stop Hrun|store_stop Hrun].
  rewrite bindM_run, assign_run in Hrun by store_len.
  rewrite bindM_run,
    (op_1_1_run (total1 np_square) (length (h ++ [Arr1 yp])) e) in Hrun
    by store_lookup.
  cbn [after_alloc total1] in Hrun.
  rewrite bindM_run, (load1_run _ (np_square e)) in Hrun by store_lookup.
  rewrite bindM_run in Hrun. unfold lift in Hrun.
  destruct (np_mean (np_square e)) as [m| |]; cbn [bind] in *;
    [|store_stop Hrun|store_stop Hrun].
  rewrite bindM_run, (load1_run beta b') in Hrun by store_lookup.
  rewrite bindM_run in Hrun. unfold alloc at 1 in Hrun.
  rewrite bindM_run, (load_list_run hist es) in Hrun by store_lookup.
  rewrite assign_run in Hrun by store_len.
  inversion Hrun; subst r h'. clear Hrun.
  split; [store_frame|].
  split; [reflexivity|]. split; [store_lookup|].
  eexists. exists (half * m). split; [reflexivity|].
  split; [store_lookup|]. split; [store_len|]. store_lookup.
Qed.

Lemma entries_ok_snoc (n0 : nat) (beta hist : loc) (h h1 : store)
    (es : list (loc * num)) (H : history) (snap : loc) (b1 : vec) (loss : num) :
  entries_ok n0 beta hist h es H ->
  frame beta hist h h1 ->
  (n0 <= length h)%nat -> (beta < length h)%nat -> (hist < length h)%nat ->
  (length h <= snap)%nat -> nth_error h1 snap = Some (Arr1 b1) ->
  entries_ok n0 beta hist h1 (es ++ [(snap, loss)]) (H ++ [(b1, loss)]).
Proof.
  intros [HF HN] [HL HFr] Hn0 Lb Lh Hsnap Hs1. split.
  - apply Forall2_app.
    + eapply Forall2_impl; [|exact HF].
      intros e p (H1 & H2 & H3 & H4 & H5).
      repeat split; auto.
      rewrite HFr; auto. eapply lookup_lt; eauto.
    + constructor; [|constructor]. cbn [fst snd].
      repeat split; auto; lia.
  - rewrite map_app. cbn [map fst]. apply NoDup_app.
    + exact HN.
    + constructor; [intros []|constructor].
    + intros l Hl [<-|[]].
      apply in_map_iff in Hl as (e & He1 & He2).
      assert (Hlt : (fst e < length h)%nat).
      { clear - HF He2. induction HF as [|e0 p0 es0 H0 Hhd _ IH]; [destruct He2|].
        destruct He2 as [->|He2]; [|auto].
        destruct Hhd as (Hhd & _). eapply lookup_lt; eauto. }
      lia.
Qed.

Lemma gd_loop_h_run (X_b y : loc) (n : nat) (lr : num) (beta hist : loc)
    (A : ndarray2) (yv : vec) (n0 : nat) (k : nat) :
  beta <> hist -> X_b <> beta -> X_b <> hist -> y <> beta -> y <> hist ->
  forall (h : store) (b : vec) (es : list (loc * num)) (H : history)
         (r : result unit) (h' : store),
    nth_error h X_b = Some (Arr2 A) -> nth_error h y = Some (Arr1 yv) ->
    nth_error h beta = Some (Arr1 b) -> nth_error h hist = Some (PyList es) ->
    (n0 <= length h)%nat -> entries_ok n0 beta hist h es H ->
    gd_loop_h X_b y n lr beta hist k h = (r, h') ->
    frame beta hist h h' /\
    match gd_loop A yv n lr k (b, H) with
    | Ok (b', H') =>
        r = Ok tt /\ nth_error h' beta = Some (Arr1 b') /\
        exists es', nth_error h' hist = Some (PyList es') /\
                    entries_ok n0 beta hist h' es' H'
    | Raise e => r = Raise e
    | NaN => r = NaN
    end.
Proof.
  intros Hne HXb HXh Hyb Hyh.
  induction k as [|k IH]; intros h b es H r h' HX Hy Hb Hh Hn0 Hes Hrun.
  - cbn in Hrun. inversion Hrun; subst. split; [apply frame_refl|].
    cbn. split; [reflexivity|]. split; [assumption|]. exists es. auto.
  - cbn [gd_loop_h gd_loop] in *. rewrite bindM_run in Hrun.
    destruct (gd_iteration_h X_b y n lr beta hist h) as [r1 h1] eqn:E1.
    destruct (gd_iteration_h_run X_b y n lr beta hist h A yv b es H r1 h1
                HX Hy Hb Hh Hne E1) as [Hfr Hpure].
    pose proof (lookup_lt h beta _ Hb) as Lb.
    pose proof (lookup_lt h hist _ Hh) as Lh.
    destruct (gd_iteration A yv n lr (b, H)) as [[b1 H1]| |]; cbn [bind].
    + destruct Hpure as (-> & Hb1 & snap & loss & -> & Hh1 & Hsnap & Hs1).
      destruct Hfr as [HL HFr] eqn:Efr. clear Efr.
      destruct (IH h1 b1 (es ++ [(snap, loss)]) (H ++ [(b1, loss)]) r h')
        as [Hfr' Hres]; auto.
      * rewrite HFr; auto. eapply lookup_lt; eauto.
      * rewrite HFr; auto. eapply lookup_lt; eauto.
      * lia.
      * eapply entries_ok_snoc; eauto.
      * split; [eapply frame_trans; eauto|]. exact Hres.
    + subst r1. inversion Hrun; subst. auto.
    + subst r1. inversion Hrun; subst. auto.
Qed.

Lemma frame_unchanged (b1 b2 : loc) (h h' : store) :
  frame b1 b2 h h' -> (length h <= b1)%nat -> (length h <= b2)%nat ->
  unchanged h h'.
Proof.
  intros [_ F] H1 H2 l Hl. apply F; lia.
Qed.

(** [linear_regression_closed_form] on the store: it only allocates, and
    what it returns is what the value-level model returns, in a new
    array. *)
Lemma closed_form_h_run (h : store) (X y : loc) (Xv : ndarray2) (yv : vec)
    (r : result loc) (h' : store) :
  nth_error h X = Some (Arr2 Xv) -> nth_error h y = Some (Arr1 yv) ->
  linear_regression_closed_form_h X y h = (r, h') ->
  unchanged h h' /\
  match linear_regression_closed_form Xv yv with
  | Ok bv => exists b, r = Ok b /\ (length h <= b)%nat /\
                       nth_error h' b = Some (Arr1 bv)
  | Raise e => r = Raise e
  | NaN => r = NaN
  end.
Proof.
  intros HX Hy Hrun.
  pose proof (lookup_lt h X _ HX) as LX.
  pose proof (lookup_lt h y _ Hy) as Ly.
  assert (Hgoal : frame (length h) (length h) h h' /\
            match linear_regression_closed_form Xv yv with
            | Ok bv => exists b, r = Ok b /\ (length h <= b)%nat /\
                                 nth_error h' b = Some (Arr1 bv)
            | Raise e => r = Raise e
            | NaN => r = NaN
            end).
  2: { destruct Hgoal as [Hf Hres]. split; [|exact Hres].
       eapply frame_unchanged; eauto. }
  unfold linear_regression_closed_form_h in Hrun.
  unfold linear_regression_closed_form.
  rewrite bindM_run, (load2_run X Xv h HX) in Hrun.
  rewrite bindM_run in Hrun. unfold alloc at 1 in Hrun.
  rewrite bindM_run, (op_22_2_run np_c_ _ X (np_ones (shape0 Xv) 1) Xv) in Hrun
    by store_lookup.
  destruct (np_c_ (np_ones (shape0 Xv) 1) Xv) as [A| |];
    cbn [after_alloc bind] in *; [|store_stop Hrun|store_stop Hrun].
  rewrite bindM_run, (op_2_2_run (total1 transpose) _ A) in Hrun by store_lookup.
  cbn [after_alloc total1] in Hrun.
  rewrite bindM_run, (op_22_2_run matmul _ _ (transpose A) A) in Hrun
    by store_lookup.
  destruct (matmul (transpose A) A) as [XtX| |];
    cbn [after_alloc bind] in *; [|store_stop Hrun|store_stop Hrun].
  rewrite bindM_run, (op_2_2_run linalg_inv _ XtX) in Hrun by store_lookup.
  destruct (linalg_inv XtX) as [B| |];
    cbn [after_alloc bind] in *; [|store_stop Hrun|store_stop Hrun].
  rewrite bindM_run, (op_2_2_run (total1 transpose) _ A) in Hrun by store_lookup.
  cbn [after_alloc total1] in Hrun.
  rewrite bindM_run, (op_22_2_run matmul _ _ B (transpose A)) in Hrun
    by store_lookup.
  destruct (matmul B (transpose A)) as [P| |];
    cbn [after_alloc bind] in *; [|store_stop Hrun|store_stop Hrun].
  rewrite (op_21_1_run matvec _ y P yv) in Hrun by store_lookup.
  destruct (matvec P yv) as [bv| |];
    cbn [after_alloc] in *; [|store_stop Hrun|store_stop Hrun].
  inversion Hrun; subst r h'. clear Hrun.
  split; [store_frame|]. eexists. split; [reflexivity|].
  split; [store_len | store_lookup].
Qed.

(** [gradient_descent] on the store: it writes to the two objects it has
    allocated itself, [beta] and the list, and to nothing else; what it
    returns is what the value-level model returns. *)
Lemma gradient_descent_h_run (h : store) (X y : loc) (Xv : ndarray2) (yv : vec)
    (lr : num) (epochs : Z) (r : result (loc * loc)) (h' : store) :
  nth_error h X = Some (Arr2 Xv) -> nth_error h y = Some (Arr1 yv) ->
  gradient_descent_h X y lr epochs h = (r, h') ->
  unchanged h h' /\
  match gradient_descent Xv yv lr epochs with
  | Ok (bv, H) =>
      exists beta hist es,
        r = Ok (beta, hist) /\
        (length h <= beta)%nat /\ (length h <= hist)%nat /\ beta <> hist /\
        nth_error h' beta = Some (Arr1 bv) /\
        nth_error h' hist = Some (PyList es) /\
        entries_ok (length h) beta hist h' es H
  | Raise e => r = Raise e
  | NaN => r = NaN
  end.
Proof.
  intros HX Hy Hrun.
  pose proof (lookup_lt h X _ HX) as LX.
  pose proof (lookup_lt h y _ Hy) as Ly.
  unfold gradient_descent_h in Hrun. unfold gradient_descent.
  rewrite bindM_run, (load2_run X Xv h HX) in Hrun.
  rewrite bindM_run in Hrun. unfold alloc at 1 in Hrun.
  rewrite bindM_run, (op_22_2_run np_c_ _ X (np_ones (shape0 Xv) 1) Xv) in Hrun
    by store_lookup.
  destruct (np_c_ (np_ones (shape0 Xv) 1) Xv) as [A| |];
    cbn [after_alloc bind] in *.
  2: { inversion Hrun; subst. split; [|reflexivity].
       intros l Hl. now rewrite lookup_old by lia. }
  2: { inversion Hrun; subst. split; [|reflexivity].
       intros l Hl. now rewrite lookup_old by lia. }
  rewrite bindM_run in Hrun. unfold alloc at 1 in Hrun.
  rewrite bindM_run in Hrun. unfold alloc at 1 in Hrun.
  rewrite bindM_run in Hrun.
  set (h1 := h ++ [Arr2 (np_ones (shape0 Xv) 1)]) in *.
  set (h2 := h1 ++ [Arr2 A]) in *.
  set (h3 := h2 ++ [Arr1 (np_zeros 2)]) in *.
  set (h4 := h3 ++ [PyList []]) in *.
  assert (L1 : length h1 = S (length h)) by (unfold h1; store_len).
  assert (L2 : length h2 = S (length h1)) by (unfold h2; store_len).
  assert (L3 : length h3 = S (length h2)) by (unfold h3; store_len).
  assert (L4 : length h4 = S (length h3)) by (unfold h4; store_len).
  assert (Hold : forall l, (l < length h)%nat -> nth_error h4 l = nth_error h l).
  { intros l Hl. unfold h4, h3, h2, h1. now rewrite !lookup_old by store_len. }
  destruct (gd_loop_h (length h1) y (shape0 Xv) lr (length h2) (length h3)
              (Z.to_nat epochs) h4) as [r1 h5] eqn:Eloop.
  destruct (gd_loop_h_run (length h1) y (shape0 Xv) lr (length h2) (length h3)
              A yv (length h) (Z.to_nat epochs)
              ltac:(lia) ltac:(lia) ltac:(lia) ltac:(lia) ltac:(lia)
              h4 (np_zeros 2) [] [] r1 h5) as [Hfr Hres]; auto.
  - unfold h4, h3, h2. rewrite !lookup_old by store_len. apply lookup_last.
  - rewrite Hold by lia. exact Hy.
  - unfold h4, h3. rewrite lookup_old by store_len. apply lookup_last.
  - apply lookup_last.
  - lia.
  - split; constructor.
  - assert (Hun : unchanged h h').
    { intros l Hl. destruct Hfr as [HL HF].
      destruct r1; inversion Hrun; subst; rewrite HF by lia; now apply Hold. }
    split; [exact Hun|].
    destruct (gd_loop A yv (shape0 Xv) lr (Z.to_nat epochs) (np_zeros 2, []))
      as [[bv H]| |].
    + destruct Hres as (-> & Hb & es & Hh & Hes).
      cbn [ret] in Hrun. inversion Hrun; subst.
      exists (length h2), (length h3), es.
      split; [reflexivity|]. split; [lia|]. split; [lia|]. split; [lia|].
      split; [exact Hb|]. split; [exact Hh | exact Hes].
    + subst r1. now inversion Hrun.
    + subst r1. now inversion Hrun.
Qed.

(** C8.  Neither routine writes to an object of the caller's store: after
    the call every object that was there, the Design Matrix and the Target
    Vector among them, is unchanged, whether the call returns or raises.
    The arrays and the list that a call returns are objects allocated by
    that call: the coefficient vector, the list, and one array of its own
    for every snapshot in the list. *)
Theorem inputs_not_mutated (h : store) (X y : loc) (Xv : ndarray2) (yv : vec)
    (lr : num) (epochs : Z) :
  nth_error h X = Some (Arr2 Xv) -> nth_error h y = Some (Arr1 yv) ->
  (let rh := linear_regression_closed_form_h X y h in
   unchanged h (snd rh) /\
   nth_error (snd rh) X = Some (Arr2 Xv) /\
   nth_error (snd rh) y = Some (Arr1 yv) /\
   forall b, fst rh = Ok b ->
     (length h <= b)%nat /\
     exists bv, nth_error (snd rh) b = Some (Arr1 bv) /\
                linear_regression_closed_form Xv yv = Ok bv) /\
  (let rh := gradient_descent_h X y lr epochs h in
   unchanged h (snd rh) /\
   nth_error (snd rh) X = Some (Arr2 Xv) /\
   nth_error (snd rh) y = Some (Arr1 yv) /\
   forall beta hist, fst rh = Ok (beta, hist) ->
     (length h <= beta)%nat /\ (length h <= hist)%nat /\ beta <> hist /\
     exists bv es H,
       gradient_descent Xv yv lr epochs = Ok (bv, H) /\
       nth_error (snd rh) beta = Some (Arr1 bv) /\
       nth_error (snd rh) hist = Some (PyList es) /\
       entries_ok (length h) beta hist (snd rh) es H).
Proof.
  intros HX Hy.
  pose proof (lookup_lt h X _ HX) as LX.
  pose proof (lookup_lt h y _ Hy) as Ly.
  split.
  - destruct (linear_regression_closed_form_h X y h) as [r h'] eqn:E.
    destruct (closed_form_h_run h X y Xv yv r h' HX Hy E) as [Hun Hres].
    cbn [fst snd]. split; [exact Hun|].
    split; [now rewrite Hun|]. split; [now rewrite Hun|].
    intros b ->.
    destruct (linear_regression_closed_form Xv yv) as [bv| |];
      [|discriminate|discriminate].
    destruct Hres as (b0 & Hb0 & Hlen & Hlk). inversion Hb0; subst b0.
    split; [exact Hlen|]. exists bv. auto.
  - destruct (gradient_descent_h X y lr epochs h) as [r h'] eqn:E.
    destruct (gradient_descent_h_run h X y Xv yv lr epochs r h' HX Hy E)
      as [Hun Hres].
    cbn [fst snd]. split; [exact Hun|].
    split; [now rewrite Hun|]. split; [now rewrite Hun|].
    intros beta hist ->.
    destruct (gradient_descent Xv yv lr epochs) as [[bv H]| |];
      [|discriminate|discriminate].
    destruct Hres as (b0 & h0 & es & Heq & H1 & H2 & H3 & H4 & H5 & H6).
    inversion Heq; subst b0 h0.
    split; [exact H1|]. split; [exact H2|]. split; [exact H3|].
    exists bv, es, H. auto.
Qed.

Lemma inputs_not_mutated_witness :
  let h := [Arr2 X_line; Arr1 y_line] in
  nth_error (snd (linear_regression_closed_form_h 0%nat 1%nat h)) 0%nat
  = Some (Arr2 X_line) /\
  nth_error (snd (gradient_descent_h 0%nat 1%nat (Q2Qc (1 # 20)) 3 h)) 1%nat
  = Some (Arr1 y_line).
Proof.
  intros h.
  destruct (inputs_not_mutated h 0%nat 1%nat X_line y_line (Q2Qc (1 # 20)) 3
              eq_refl eq_refl)
    as [(_ & H1 & _) (_ & _ & H2 & _)].
  split; [exact H1 | exact H2].
Defined.

(* ================================================================= *)
(** * More algebra of vectors *)

Lemma vsum_square (e : vec) : vsum (np_square e) = dot e e.
Proof. induction e as [|a e IH]; simpl; auto. now rewrite IH. Qed.

Lemma dot_vsub_r (v u w : vec) :
  length u = length w -> dot v (vsub u w) = dot v u - dot v w.
Proof.
  intros H. rewrite dot_comm, dot_vsub_l by assumption.
  now rewrite (dot_comm u v), (dot_comm w v).
Qed.

Lemma mat_apply_vsub (A : ndarray2) (u w : vec) :
  length u = length w ->
  mat_apply A (vsub u w) = vsub (mat_apply A u) (mat_apply A w).
Proof.
  intros H. unfold mat_apply. rewrite vsub_map. apply map_ext.
  intros r. now apply dot_vsub_r.
Qed.

Lemma vsub_all_zero_iff (u w : vec) :
  length u = length w -> (all_zero (vsub u w) <-> u = w).
Proof.
  revert w. induction u as [|a u IH]; intros [|b w] H; simpl in *;
    try discriminate.
  - split; [reflexivity | constructor].
  - split.
    + intros Hz. inversion Hz as [|? ? H1 H2]; subst.
      f_equal; [|apply IH; auto].
      rewrite <- (Qcplus_0_l b), <- H1. ring.
    + intros E. inversion E; subst. constructor; [ring|].
      apply IH; auto.
Qed.

Lemma num_of_nat_nonzero (n : nat) : (0 < n)%nat -> num_of_nat n <> 0.
Proof.
  intros H E. unfold num_of_nat in E. apply Q2Qc_eq_iff in E.
  unfold Qeq, inject_Z in E. simpl in E. lia.
Qed.

Lemma num_of_nat_pos (n : nat) : (0 < n)%nat -> 0 < num_of_nat n.
Proof.
  intros H. unfold Qclt, num_of_nat. cbn [this Q2Qc].
  rewrite !Qred_correct. unfold Qlt, inject_Z. simpl. lia.
Qed.

(* ================================================================= *)
(** * The fit, and the prediction cell after it (Notebook 2) *)

Lemma matmul_identity_apply (P Q : ndarray2) (n : nat) (x : vec) :
  wf2 Q -> matmul P Q = Ok (identity n) -> length x = n ->
  mat_apply P (mat_apply Q x) = x.
Proof.
  intros Hwf HPQ Hx. unfold matmul in HPQ.
  destruct (shape1 P =? shape0 Q)%nat; [|discriminate].
  injection HPQ as Hs Hrows.
  unfold mat_apply at 1.
  rewrite (map_ext _ (fun r => dot (vecmat r Q) x))
    by (intros r; symmetry; apply dot_vecmat; auto; lia).
  rewrite <- (map_map (fun r => vecmat r Q) (fun v => dot v x)), Hrows.
  rewrite map_map.
  transitivity (map (fun j => nth j x 0) (seq 0 n));
    [|now apply map_nth_seq0].
  apply map_ext_in. intros i Hi. apply in_seq in Hi. apply dot_unit. lia.
Qed.

(** What a returned coefficient vector tells: the inversion went through,
    the Target Vector has one entry per row, and the vector is
    [B (A^T y)]. *)
Lemma closed_form_returns (X : ndarray2) (y beta : vec) :
  linear_regression_closed_form X y = Ok beta ->
  exists B, linalg_inv (normal_matrix (augment X)) = Ok B /\
            length y = shape0 X /\ (0 < shape0 X)%nat /\
            beta = mat_apply B (mat_apply (transpose (augment X)) y).
Proof.
  intros H.
  destruct (Nat.eq_dec (length y) (shape0 X)) as [Hy|Hy].
  2: { destruct (closed_form_length_mismatch X y Hy) as [E|E];
         rewrite E in H; discriminate. }
  destruct (Nat.eq_dec (shape0 X) 0) as [H0|H0].
  { rewrite (closed_form_no_rows X y H0) in H. discriminate. }
  destruct (linalg_inv_outcome (normal_matrix (augment X))) as [E|[B E]].
  { rewrite closed_form_unfold, E in H. discriminate. }
  exists B. split; [exact E|]. split; [exact Hy|]. split; [lia|].
  rewrite (closed_form_value X y B Hy E) in H. now inversion H.
Qed.

Lemma closed_form_length (X : ndarray2) (y beta : vec) :
  linear_regression_closed_form X y = Ok beta -> length beta = S (shape1 X).
Proof.
  intros H. destruct (closed_form_returns X y beta H) as (B & HB & _ & _ & ->).
  destruct (linalg_inv_rows _ B (normal_matrix_wf _) (normal_matrix_square _) HB)
    as (_ & H0 & _ & _).
  rewrite mat_apply_length, H0. apply normal_matrix_shape0.
Qed.

Lemma predict_aligned (X : ndarray2) (beta : vec) :
  length beta = S (shape1 X) ->
  predict X beta = Ok (mat_apply (augment X) beta).
Proof.
  intros H. unfold predict. rewrite np_c_ones. cbn [bind].
  now apply matvec_aligned.
Qed.

(** In exact arithmetic the normal equations [(A^T A) beta = A^T y] hold
    of every vector the closed form returns. *)
Lemma closed_form_solves (X : ndarray2) (y beta : vec) :
  wf2 X -> linear_regression_closed_form X y = Ok beta ->
  mat_apply (normal_matrix (augment X)) beta
  = mat_apply (transpose (augment X)) y.
Proof.
  intros Hwf H. destruct (closed_form_returns X y beta H) as (B & HB & Hy & _ & ->).
  apply (matmul_identity_apply _ B (S (shape1 X))).
  - destruct (linalg_inv_rows _ B (normal_matrix_wf _) (normal_matrix_square _) HB)
      as (_ & _ & HwfB & _). exact HwfB.
  - now apply normal_matrix_right_inverse.
  - rewrite mat_apply_length. apply transpose_shape0.
Qed.

(** With the normal equations, the residual is orthogonal to every column
    of [A]. *)
Lemma normal_equations_orthogonal (A : ndarray2) (y beta : vec) :
  wf2 A -> length beta = shape1 A -> length y = shape0 A ->
  (mat_apply (normal_matrix A) beta = mat_apply (transpose A) y <->
   all_zero (mat_apply (transpose A) (vsub y (mat_apply A beta)))).
Proof.
  intros Hwf Hb Hy.
  rewrite mat_apply_vsub by (now rewrite mat_apply_length).
  rewrite <- normal_matrix_apply by assumption.
  rewrite vsub_all_zero_iff
    by (rewrite !mat_apply_length, transpose_shape0; symmetry;
        apply normal_matrix_shape0).
  split; congruence.
Qed.

Lemma sum_sq_dot (e : vec) : sum_sq e = dot e e.
Proof. apply vsum_square. Qed.




Lemma dot_ones (n : nat) (r : vec) :
  length r = n -> dot (repeat 1 n) r = vsum r.
Proof.
  revert n. induction r as [|a r IH]; intros [|n] H; simpl in *;
    try discriminate; auto.
  rewrite IH by lia. ring.
Qed.

Lemma augment_col0 (X : ndarray2) :
  col 0 (rows2 (augment X)) = repeat 1 (shape0 X).
Proof.
  unfold col, augment, shape0. simpl. rewrite map_map. simpl.
  induction (rows2 X) as [|r rs IH]; simpl; auto. now rewrite IH.
Qed.

(** In exact arithmetic the residuals of a returned fit are orthogonal to
    the augmented columns, and so sum to zero. *)
Lemma closed_form_residuals_orthogonal (X : ndarray2) (y beta : vec) :
  wf2 X -> linear_regression_closed_form X y = Ok beta ->
  exists y_pred,
    predict X beta = Ok y_pred /\
    all_zero (mat_apply (transpose (augment X)) (vsub y y_pred)) /\
    vsum (vsub y y_pred) = 0.
Proof.
  intros Hwf H.
  pose proof (closed_form_length X y beta H) as Hlen.
  destruct (closed_form_returns X y beta H) as (_ & _ & Hy & _ & _).
  pose proof (augment_wf X Hwf) as HwfA.
  exists (mat_apply (augment X) beta).
  split; [now apply predict_aligned|].
  assert (Hz : all_zero (mat_apply (transpose (augment X))
                           (vsub y (mat_apply (augment X) beta)))).
  { apply normal_equations_orthogonal; auto.
    - now rewrite augment_shape0.
    - now apply closed_form_solves. }
  split; [exact Hz|].
  pose proof Hz as Hz'. rewrite transpose_apply in Hz'. unfold vecmat in Hz'.
  change (shape1 (augment X)) with (S (shape1 X)) in Hz'.
  cbn [seq map] in Hz'. inversion Hz' as [|? ? H0 _]. subst.
  change (map (cons 1) (rows2 X)) with (rows2 (augment X)) in H0.
  rewrite augment_col0, dot_comm in H0.
  rewrite dot_ones in H0; [exact H0|].
  rewrite vsub_length, mat_apply_length, augment_shape0. lia.
Qed.

Lemma X_line_rows : (0 < shape0 X_line)%nat.
Proof. unfold X_line, shape0. simpl. lia. Qed.

(* ================================================================= *)
(** * What every returning call of [gradient_descent] keeps *)

Lemma Qc_mult_nonneg (a b : num) : 0 <= a -> 0 <= b -> 0 <= a * b.
Proof.
  intros Ha Hb. replace 0 with (0 * b) by ring.
  now apply Qcmult_le_compat_r.
Qed.

Lemma Qc_inv_nonneg (a : num) : 0 < a -> 0 <= / a.
Proof.
  intros Ha. assert (Hnz : a <> 0).
  { intros E. subst. now apply (Qclt_not_eq 0 0). }
  replace (/ a) with ((/ a * / a) * a).
  - apply Qc_mult_nonneg; [apply Qc_square_nonneg | now apply Qclt_le_weak].
  - rewrite <- Qcmult_assoc, Qcmult_inv_l by assumption. ring.
Qed.

Lemma half_nonneg : 0 <= half.
Proof. unfold Qcle, half. simpl. unfold Qle. simpl. lia. Qed.

Lemma np_isub_length (b d b' : vec) :
  np_isub b d = Ok b' -> length b' = length b.
Proof.
  unfold np_isub. destruct (Nat.eqb_spec (length d) (length b)) as [E|E].
  - intros H. inversion H. rewrite vsub_length. lia.
  - destruct d as [|a [|a' d]]; try discriminate.
    intros H. inversion H. apply length_map.
Qed.

Lemma step_at_length (X_b : ndarray2) (y : vec) (n : nat) (lr : num) (b b' : vec) :
  step_at X_b y n lr b = Ok b' -> length b' = length b.
Proof.
  unfold step_at.
  destruct (residual_at X_b y b) as [e| |]; try discriminate. cbn [bind].
  destruct (matvec _ e) as [g| |]; try discriminate. cbn [bind].
  destruct (np_div_int g n) as [gr| |]; try discriminate. cbn [bind].
  apply np_isub_length.
Qed.

Lemma iter_from_length (X_b : ndarray2) (y : vec) (n : nat) (lr : num) (i : nat) :
  forall b b', iter_from X_b y n lr b i = Ok b' -> length b' = length b.
Proof.
  induction i as [|i IH]; intros b b' H; simpl in H.
  - now inversion H.
  - destruct (step_at X_b y n lr b) as [b1| |] eqn:E; try discriminate.
    cbn [bind] in H. rewrite (IH b1 b' H). now apply step_at_length in E.
Qed.

Lemma gd_line_run (lr : num) (epochs : Z) :
  gradient_descent X_line y_line lr epochs
  = Ok (gd_trace (augment X_line) y_line (shape0 X_line) lr
          (Z.to_nat epochs) (np_zeros 2)).
Proof.
  apply gradient_descent_single_feature; [reflexivity | reflexivity|].
  apply X_line_rows.
Qed.

(** X10.  Whatever the Design Matrix is, the vector that a returning call
    hands back and every snapshot in its Loss History have exactly two
    entries. *)
Theorem coefficients_have_two_entries (X : ndarray2) (y : vec) (lr : num)
    (epochs : Z) (beta : vec) (hist : history) :
  gradient_descent X y lr epochs = Ok (beta, hist) ->
  length beta = 2%nat /\ Forall (fun entry => length (fst entry) = 2%nat) hist.
Proof.
  intros H. rewrite gradient_descent_unfold in H.
  apply gd_loop_entries in H as (entries & -> & _ & Hit & Hnth).
  cbn [app]. split.
  - now apply iter_from_length in Hit.
  - apply Forall_forall. intros [b l] Hin.
    apply In_nth_error in Hin as [i Hi].
    destruct (Hnth i b l Hi) as (Hb & _).
    now apply iter_from_length in Hb.
Qed.

Lemma coefficients_have_two_entries_witness :
  length (fst (gd_trace (augment X_line) y_line (shape0 X_line) (Q2Qc (1 # 20))
                 (Z.to_nat 3) (np_zeros 2))) = 2%nat.
Proof.
  pose proof (gd_line_run (Q2Qc (1 # 20)) 3) as E.
  destruct (gd_trace _ _ _ _ _ _) as [beta hist].
  exact (proj1 (coefficients_have_two_entries X_line y_line (Q2Qc (1 # 20)) 3
                  beta hist E)).
Defined.

(* ================================================================= *)
(** * The loss curve over candidate slopes (Notebook 3, step 2) *)

Lemma np_mul_scalar_length (x : vec) (b : num) :
  length (np_mul_scalar x b) = length x.
Proof. apply length_map. Qed.

(** Where the flattened features and the targets have one length, and
    there is at least one of them, the body of the loop is the formula. *)
Lemma slope_loss_aligned (X : ndarray2) (y : vec) (b : num) :
  length (flatten X) = length y -> (0 < length y)%nat ->
  slope_loss X y b
  = Ok (half * (sum_sq (vsub y (np_mul_scalar (flatten X) b))
                / num_of_nat (length y))).
Proof.
  intros Hx Hy. unfold slope_loss, np_sub.
  rewrite np_mul_scalar_length, Hx, Nat.eqb_refl. cbn [bind].
  set (e := vsub y (np_mul_scalar (flatten X) b)).
  assert (Le : length e = length y).
  { unfold e. rewrite vsub_length, np_mul_scalar_length. lia. }
  unfold np_mean. destruct (np_square e) as [|s sq] eqn:E.
  - apply (f_equal (@length _)) in E. unfold np_square in E.
    rewrite length_map in E. simpl in E. lia.
  - cbn [bind]. rewrite <- E. unfold sum_sq.
    replace (length (np_square e)) with (length y)
      by (unfold np_square; now rewrite length_map).
    reflexivity.
Qed.

Lemma sum_sq_nonneg (e : vec) : 0 <= sum_sq e.
Proof. rewrite sum_sq_dot. apply dot_self_nonneg. Qed.

(** X13.  The loop over the candidate slopes, on features and targets of
    one length (at least one of them), raises nothing and returns one loss
    per candidate, in the order of the candidates, none of them negative. *)
Theorem loss_surface_returns (X : ndarray2) (y betas : vec) :
  length (flatten X) = length y -> (0 < length y)%nat ->
  exists losses,
    loss_surface X y betas = Ok losses /\
    length losses = length betas /\
    Forall (fun l => 0 <= l) losses /\
    forall i b, nth_error betas i = Some b ->
      nth_error losses i
      = Some (half * (sum_sq (vsub y (np_mul_scalar (flatten X) b))
                      / num_of_nat (length y))).
Proof.
  intros Hx Hy. induction betas as [|b bs IH].
  - exists []. repeat split; auto. intros [|i] b H; discriminate.
  - destruct IH as (ls & Hls & Hlen & Hpos & Hnth).
    eexists. cbn [loss_surface].
    rewrite (slope_loss_aligned X y b Hx Hy), Hls. cbn [bind].
    split; [reflexivity|]. split; [simpl; now rewrite Hlen|]. split.
    + constructor; [|exact Hpos].
      apply Qc_mult_nonneg; [apply half_nonneg|]. unfold Qcdiv.
      apply Qc_mult_nonneg; [apply sum_sq_nonneg|].
      apply Qc_inv_nonneg. now apply num_of_nat_pos.
    + intros [|i] b0 H; simpl in H.
      * now inversion H.
      * now apply Hnth.
Qed.

Lemma loss_surface_returns_witness :
  exists losses,
    loss_surface X_line y_line [q 0; q 2; q 5] = Ok losses /\
    length losses = 3%nat.
Proof.
  destruct (loss_surface_returns X_line y_line [q 0; q 2; q 5] eq_refl)
    as (ls & H1 & H2 & _).
  - vm_compute. lia.
  - exists ls. split; [exact H1 | exact H2].
Defined.

Lemma slope_residual_expand (x y : vec) (b : num) :
  length x = length y ->
  sum_sq (vsub y (np_mul_scalar x b))
  = dot y y - (1 + 1) * b * dot x y + b * b * dot x x.
Proof.
  rewrite sum_sq_dot. revert y.
  induction x as [|a x IH]; intros [|c y] H; simpl in *; try discriminate.
  - ring.
  - rewrite IH by lia. ring.
Qed.

(** X14.  The curve is a parabola in the slope with its lowest point at
    [b_star = (x . y) / (x . x)]: the loss at [b] exceeds the loss at
    [b_star] by [0.5 mean(x^2) (b - b_star)^2]. *)
Theorem loss_surface_minimum (X : ndarray2) (y : vec) (b : num) :
  length (flatten X) = length y -> (0 < length y)%nat ->
  dot (flatten X) (flatten X) <> 0 ->
  let x := flatten X in
  let b_star := dot x y / dot x x in
  exists l l_star,
    slope_loss X y b = Ok l /\ slope_loss X y b_star = Ok l_star /\
    l = l_star
        + half * (dot x x / num_of_nat (length y)) * ((b - b_star) * (b - b_star)) /\
    l_star <= l.
Proof.
  intros Hx Hy Hxx x b_star.
  pose proof (num_of_nat_nonzero (length y) Hy) as Hnz.
  do 2 eexists.
  split; [now apply slope_loss_aligned|].
  split; [now apply slope_loss_aligned|].
  fold x. rewrite !(slope_residual_expand x y) by assumption.
  assert (E : half * ((dot y y - (1 + 1) * b * dot x y + b * b * dot x x)
                      / num_of_nat (length y))
              = half * ((dot y y - (1 + 1) * b_star * dot x y
                         + b_star * b_star * dot x x)
                        / num_of_nat (length y))
                + half * (dot x x / num_of_nat (length y))
                  * ((b - b_star) * (b - b_star))).
  { unfold b_star. field. split; assumption. }
  split; [exact E|].
  rewrite E.
  set (l0 := half * ((dot y y - (1 + 1) * b_star * dot x y
                      + b_star * b_star * dot x x) / num_of_nat (length y))).
  rewrite <- (Qcplus_0_r l0) at 1.
  apply Qcplus_le_compat; [apply Qcle_refl|].
  apply Qc_mult_nonneg; [|apply Qc_square_nonneg].
  apply Qc_mult_nonneg; [apply half_nonneg|]. unfold Qcdiv.
  apply Qc_mult_nonneg; [apply dot_self_nonneg|].
  apply Qc_inv_nonneg. now apply num_of_nat_pos.
Qed.

Lemma loss_surface_minimum_witness :
  exists l l_star,
    slope_loss X_line y_line (q 1) = Ok l /\
    slope_loss X_line y_line (dot (flatten X_line) y_line
                              / dot (flatten X_line) (flatten X_line)) = Ok l_star /\
    l_star <= l.
Proof.
  destruct (loss_surface_minimum X_line y_line (q 1) eq_refl)
    as (l & l_star & H1 & H2 & _ & H4).
  - vm_compute. lia.
  - intros E. apply (f_equal this) in E. vm_compute in E. discriminate.
  - exists l, l_star. split; [exact H1|]. split; [exact H2 | exact H4].
Defined.

(** X15.  What stops the loop: features and targets of different lengths,
    neither of them 1, raise [ValueError] at the first candidate; no data
    at all gives a mean over nothing, which is not a number and does not
    raise; without candidates nothing is computed and the result is the
    empty list. *)
Theorem loss_surface_edges (X : ndarray2) (y : vec) (b : num) (bs : vec) :
  loss_surface X y [] = Ok [] /\
  (length (flatten X) <> length y -> length (flatten X) <> 1%nat ->
   length y <> 1%nat -> loss_surface X y (b :: bs) = Raise ValueError) /\
  (flatten X = [] -> y = [] -> loss_surface X y (b :: bs) = NaN).
Proof.
  split; [reflexivity|]. split.
  - intros Hne Hx1 Hy1. cbn [loss_surface]. unfold slope_loss, np_sub.
    rewrite np_mul_scalar_length.
    destruct (Nat.eqb_spec (length y) (length (flatten X))) as [E|E]; [lia|].
    unfold np_mul_scalar.
    destruct y as [|c [|c' y]]; destruct (flatten X) as [|a [|a' x]];
      simpl in *; try lia; reflexivity.
  - intros Hx Hy. cbn [loss_surface]. unfold slope_loss. rewrite Hx, Hy.
    reflexivity.
Qed.

Lemma loss_surface_edges_witness :
  loss_surface X_three y_line [q 1; q 2] = Raise ValueError.
Proof.
  destruct (loss_surface_edges X_three y_line (q 1) [q 2]) as (_ & H & _).
  apply H; vm_compute; lia.
Defined.

(* ================================================================= *)
(** * Tracking convergence (Notebook 3, step 5) *)

(** X17.  The cell that calls [gradient_descent(X, y)] with the default
    rate and count and unpacks the history: on single-feature data of
    matching length it gets 100 snapshots and 100 losses, and the last
    snapshot is the vector that was returned. *)
Theorem track_convergence_returns (X : ndarray2) (y : vec) :
  shape1 X = 1%nat -> length y = shape0 X -> (0 < shape0 X)%nat ->
  exists beta_gd betas_list losses,
    track_convergence X y = Ok (beta_gd, betas_list, losses) /\
    length betas_list = 100%nat /\ length losses = 100%nat /\
    nth_error betas_list 99 = Some beta_gd.
Proof.
  intros Hc Hy Hn. unfold track_convergence.
  pose proof (gradient_descent_single_feature X y (Q2Qc (1 # 100)) 100 Hc Hy Hn) as E.
  destruct (gd_trace _ _ _ _ _ _) as [beta hist] eqn:T. rewrite E. cbn [bind fst snd].
  pose proof E as E'. rewrite gradient_descent_unfold in E'.
  apply gd_loop_entries in E' as (entries & Hh & Hlen & Hit & Hnth).
  cbn [app] in Hh. subst entries.
  change (Z.to_nat 100) with 100%nat in *.
  exists beta, (map fst hist), (map snd hist).
  split; [reflexivity|]. rewrite !length_map.
  split; [exact Hlen|]. split; [exact Hlen|].
  destruct (nth_error hist 99) as [[b l]|] eqn:E99.
  - rewrite nth_error_map, E99. cbn. f_equal.
    destruct (Hnth 99%nat b l E99) as (Hb & _). congruence.
  - apply nth_error_None in E99. lia.
Qed.

Lemma track_convergence_returns_witness :
  exists beta_gd betas_list losses,
    track_convergence X_line y_line = Ok (beta_gd, betas_list, losses) /\
    length betas_list = 100%nat /\ length losses = 100%nat.
Proof.
  destruct (track_convergence_returns X_line y_line eq_refl eq_refl X_line_rows)
    as (b & bl & ls & H1 & H2 & H3 & _).
  exists b, bl, ls. split; [exact H1|]. split; [exact H2 | exact H3].
Defined.

(* ================================================================= *)
(** * No feature column at all *)

Lemma vsum_vsub_const {T : Type} (y : vec) (l : list T) (c : num) :
  length y = length l ->
  vsum (vsub y (map (fun _ => c) l)) = vsum y - num_of_nat (length l) * c.
Proof.
  revert l. induction y as [|a y IH]; intros [|t l] H; simpl in *;
    try discriminate.
  - replace (num_of_nat 0) with 0 by (apply Qc_is_canon; reflexivity). ring.
  - rewrite IH by lia.
    assert (Hs : num_of_nat (S (length l)) = 1 + num_of_nat (length l)).
    { unfold num_of_nat. apply Qc_is_canon.
      unfold Qcplus, Q2Qc. cbn [this].
      rewrite !Qred_correct. rewrite Nat2Z.inj_succ.
      unfold Qeq, Qplus, inject_Z. cbn [Qnum Qden]. lia. }
    rewrite Hs. ring.
Qed.

Lemma no_feature_rows (X : ndarray2) (b : num) :
  wf2 X -> shape1 X = 0%nat ->
  mat_apply (augment X) [b] = map (fun _ => b) (rows2 X).
Proof.
  intros Hwf Hc. unfold mat_apply, augment. cbn [rows2]. rewrite map_map.
  apply map_ext_in. intros r Hr.
  unfold wf2 in Hwf. rewrite Forall_forall in Hwf.
  specialize (Hwf r Hr). rewrite Hc in Hwf.
  apply length_zero_iff_nil in Hwf. subst r. simpl. ring.
Qed.

(** X20.  A Design Matrix with rows but without feature columns: the
    closed form fits the intercept alone and returns the mean of the
    targets. *)
Theorem intercept_only_fit_is_mean (X : ndarray2) (y : vec) :
  wf2 X -> shape1 X = 0%nat -> length y = shape0 X -> (0 < shape0 X)%nat ->
  linear_regression_closed_form X y
  = Ok [vsum y / num_of_nat (length y)].
Proof.
  intros Hwf Hc Hy Hn.
  pose proof (augment_wf X Hwf) as HwfA.
  assert (Hind : independent_columns (augment X)).
  { intros x Hx Hz. simpl in Hx. rewrite Hc in Hx.
    destruct x as [|u [|v x]]; try discriminate.
    rewrite no_feature_rows in Hz by assumption.
    destruct (rows2 X) as [|r rs] eqn:Er;
      [unfold shape0 in Hn; rewrite Er in Hn; simpl in Hn; lia|].
    inversion Hz as [|? ? Hu _]. subst. repeat constructor. }
  destruct (linalg_inv_outcome (normal_matrix (augment X))) as [H|[B HB]].
  { exfalso. apply (independent_not_singular (augment X) HwfA Hind).
    now apply (linalg_inv_raises_iff (normal_matrix (augment X))
                 (normal_matrix_wf _) (normal_matrix_square _)). }
  pose proof (closed_form_value X y B Hy HB) as Hcf.
  set (beta := mat_apply B (mat_apply (transpose (augment X)) y)) in *.
  pose proof (closed_form_length X y beta Hcf) as Hlen. rewrite Hc in Hlen.
  destruct beta as [|b [|b' beta]]; try discriminate.
  rewrite Hcf. f_equal. f_equal.
  destruct (closed_form_residuals_orthogonal X y [b] Hwf Hcf)
    as (y_pred & Hp & _ & Hsum).
  rewrite predict_aligned in Hp by (rewrite Hc; reflexivity).
  injection Hp as <-.
  rewrite no_feature_rows in Hsum by assumption.
  rewrite vsum_vsub_const in Hsum by exact Hy.
  fold (shape0 X) in Hsum. rewrite Hy.
  pose proof (num_of_nat_nonzero (shape0 X) Hn) as Hnz.
  assert (E : vsum y = num_of_nat (shape0 X) * b).
  { rewrite <- (Qcplus_0_l (num_of_nat (shape0 X) * b)), <- Hsum. ring. }
  rewrite E. field. exact Hnz.
Qed.

Lemma intercept_only_fit_is_mean_witness :
  linear_regression_closed_form (mk2 0 [[]; []; []]) [q 1; q 2; q 6]
  = Ok [vsum [q 1; q 2; q 6] / num_of_nat (length [q 1; q 2; q 6])].
Proof.
  apply (intercept_only_fit_is_mean (mk2 0 [[]; []; []]) [q 1; q 2; q 6]).
  - apply wf2b_wf2. reflexivity.
  - reflexivity.
  - reflexivity.
  - vm_compute. lia.
Defined.
